(** * Neon sound visualizer: the analysis and rendering pipeline

    A shallow embedding of [src/components/NeonSoundVisualizer.tsx].

    Conventions of the model.
    - A JavaScript [number] is an exact rational ([Q]): the functions below
      compute what the source computes before rounding.  Equality of
      numbers is [Qeq] ([==]).  Where a single rounding decides a property
      (landing exactly on a target, the open end of a range), the
      expression concerned is also given on binary64 floats, in the module
      [Binary64], and evaluated there.
    - A [Uint8Array] is a [list Z]; the predicate [u8] records the range
      0..255 that the array type enforces.
    - A React ref ([xRef.current]) and a React state cell are fields of the
      record [State]; every function of the component takes the state and
      returns the new one.
    - What the platform supplies (the outcome of media acquisition, the
      analyser's current byte data, [performance.now()], [Math.random()],
      the canvas) is an explicit argument.
    - Construction of the audio graph ([new AudioContext()],
      [createAnalyser], [createMediaStreamSource], [connect]) is taken to
      succeed. *)

From Stdlib Require Import Reals Lra.
From Stdlib Require Import String Bool ZArith Lia.
From Stdlib Require Import QArith Qminmax Qround Qabs Qpower Qreals Lqa.
From Stdlib Require Import List.
From Stdlib Require PrimFloat.
Import ListNotations.

Open Scope Q_scope.

(** ** Numbers *)

(** [x < y] on numbers, as a boolean. *)
Definition Qltb (x y : Q) : bool := negb (Qle_bool y x).

(** The element range of a [Uint8Array]. *)
Definition u8 (v : Z) : Prop := (0 <= v <= 255)%Z.

(** [arr.length] as a number. *)
Definition len {A : Type} (l : list A) : Q := inject_Z (Z.of_nat (length l)).

(** [arr.slice(lo, hi)] for [0 <= lo <= hi]: indices are clipped to the
    length of the array. *)
Definition slice {A : Type} (lo hi : nat) (l : list A) : list A :=
  firstn (hi - lo) (skipn lo l).

(** [arr.reduce((sum, val) => sum + val, 0)] *)
Definition reduce_sum (l : list Z) : Q :=
  fold_left (fun sum val => sum + inject_Z val) l 0.

(** [Array(n).fill(v)] *)
Definition fill {A : Type} (n : nat) (v : A) : list A := repeat v n.

(** [arr[i] = v] for [i] inside the array (every write of the component is
    guarded so that it is). *)
Fixpoint set_nth {A : Type} (i : nat) (v : A) (l : list A) : list A :=
  match l, i with
  | [], _ => []
  | _ :: t, O => v :: t
  | h :: t, S j => h :: set_nth j v t
  end.

(** ** Data model *)

Record Particle := mkParticle {
  x : Q;
  y : Q;
  vx : Q;
  vy : Q;
  life : Q;
  maxLife : Q;
  color : option string
}.

Record VisualizerData := mkData {
  frequencies : list Z;
  waveform : list Z;
  bassLevel : Q;
  midLevel : Q;
  trebleLevel : Q;
  beat : bool
}.

(** A media stream, as far as the component looks at it. *)
Record MediaStream := mkStream {
  audioTracks : nat;
  videoTracks : nat
}.

Record AnalyserNode := mkAnalyser {
  fftSize : nat;
  smoothingTimeConstant : Q
}.

Definition frequencyBinCount (a : AnalyserNode) : nat := Nat.div (fftSize a) 2.

Inductive SourceType := mic | system.

(** The refs and the state cells of the component. *)
Record State := mkState {
  audioContextRef : bool;               (* an AudioContext is stored *)
  analyserRef : option AnalyserNode;
  sourceRef : option MediaStream;       (* source node of that stream *)
  animationIdRef : nat;
  particlesRef : list Particle;
  prevBarHeightsRef : list Q;
  prevWaveRef : list Q;
  bassEmaRef : Q;
  lastBeatTsRef : Q;
  isPlaying : bool;
  audioStream : option MediaStream;
  sourceType : option SourceType;
  errorMsg : string
}.

(** The component as mounted. *)
Definition initial : State :=
  mkState false None None 0 [] [] [] 0 0 false None None "".

(** The analyser's current byte data at one tick. *)
Record Frame := mkFrame {
  byteFrequencyData : list Z;
  byteTimeDomainData : list Z
}.

Definition frame_ok (fr : Frame) : Prop :=
  Forall u8 (byteFrequencyData fr) /\ Forall u8 (byteTimeDomainData fr).

(** [const buf = new Uint8Array(n); analyser.getByte...Data(buf)]: a buffer
    of [n] zeros over which the analyser copies as much of its data as
    fits. *)
Definition sample (n : nat) (src : list Z) : list Z :=
  firstn n src ++ repeat 0%Z (n - length src).

(** ** analyzeAudio: frame sampler, band aggregator, beat detector *)

Definition alpha : Q := 0.2.
Definition threshold : Q := 35.
Definition minInterval : Q := 180.

(** The mean of one band: [range.reduce(...) / range.length].  On an empty
    range JavaScript yields [NaN] where the model yields 0; the three
    ranges are non-empty as soon as the snapshot has more than 50 bins. *)
Definition level (range : list Z) : Q := reduce_sum range / len range.

Definition set_beat (st : State) (ema ts : Q) : State :=
  mkState (audioContextRef st) (analyserRef st) (sourceRef st)
          (animationIdRef st) (particlesRef st) (prevBarHeightsRef st)
          (prevWaveRef st) ema ts
          (isPlaying st) (audioStream st) (sourceType st) (errorMsg st).

Definition analyzeAudio (st : State) (fr : Frame) (now : Q)
  : option (VisualizerData * State) :=
  match analyserRef st with
  | None => None
  | Some a =>
      let frequencies := sample (frequencyBinCount a) (byteFrequencyData fr) in
      let waveform := sample (frequencyBinCount a) (byteTimeDomainData fr) in
      let bassRange := slice 0 10 frequencies in
      let midRange := slice 10 50 frequencies in
      let trebleRange := slice 50 100 frequencies in
      let bassLevel := level bassRange in
      let midLevel := level midRange in
      let trebleLevel := level trebleRange in
      let ema := (1 - alpha) * bassEmaRef st + alpha * bassLevel in
      let beat := Qltb (ema + threshold) bassLevel
                  && Qltb minInterval (now - lastBeatTsRef st) in
      let ts := if beat then now else lastBeatTsRef st in
      Some (mkData frequencies waveform bassLevel midLevel trebleLevel beat,
            set_beat st ema ts)
  end.

(** ** Particles *)

Definition colors : list string :=
  ["#00ffff"; "#ff00ff"; "#ffff00"; "#00ff00"; "#ff0080"; "#8000ff"]%string.

(** [arr[i]] for an integer [i]; [None] is JavaScript's [undefined]. *)
Definition index {A : Type} (l : list A) (i : Z) : option A :=
  if (i <? 0)%Z then None else nth_error l (Z.to_nat i).

(** [r1 .. r4] are the four results of [Math.random()], in the order in
    which the object literal evaluates them. *)
Definition createParticle (x y intensity : Q) (r1 r2 r3 r4 : Q) : Particle :=
  mkParticle x y
             ((r1 - 0.5) * intensity)
             ((r2 - 0.5) * intensity)
             0
             (60 + r3 * 60)
             (index colors (Qfloor (r4 * len colors))).

(** The body of the callback of [filter], up to its [return]. *)
Definition advance (p : Particle) : Particle :=
  mkParticle (x p + vx p) (y p + vy p)
             (vx p * 0.98) (vy p * 0.98)
             (life p + 1) (maxLife p) (color p).

(** The value the callback returns, on the particle it has just mutated. *)
Definition alive (p : Particle) : bool := Qltb (life p) (maxLife p).

Definition set_particles (st : State) (ps : list Particle) : State :=
  mkState (audioContextRef st) (analyserRef st) (sourceRef st)
          (animationIdRef st) ps (prevBarHeightsRef st)
          (prevWaveRef st) (bassEmaRef st) (lastBeatTsRef st)
          (isPlaying st) (audioStream st) (sourceType st) (errorMsg st).

Definition updateParticles (st : State) : State :=
  set_particles st (filter alive (map advance (particlesRef st))).

(** ** The canvas *)

Inductive FillStyle :=
| veil                               (* 'rgba(0, 0, 0, 0.25)' *)
| gradient (hue : Q).                (* hsl(hue,100%,50%) down to 20% *)

(** What reaches the raster surface, in the order of the calls. *)
Inductive DrawOp :=
| fillRect (style : FillStyle) (shadowBlur : Q) (x y w h : Q)
| stroke (path : list (Q * Q))       (* cyan, lineWidth 2, shadowBlur 15 *)
| fillArc (globalAlpha : Q) (color : option string) (cx cy radius : Q).

Record Canvas := mkCanvas {
  width : Q;
  height : Q;
  context2d : bool                   (* getContext('2d') is not null *)
}.

(** [Math.max(Math.min(d, maxDelta), -maxDelta)] *)
Definition clamp (d maxDelta : Q) : Q := Qmax (Qmin d maxDelta) (- maxDelta).

Definition set_bars (st : State) (hs : list Q) : State :=
  mkState (audioContextRef st) (analyserRef st) (sourceRef st)
          (animationIdRef st) (particlesRef st) hs
          (prevWaveRef st) (bassEmaRef st) (lastBeatTsRef st)
          (isPlaying st) (audioStream st) (sourceType st) (errorMsg st).

Definition set_wave (st : State) (ws : list Q) : State :=
  mkState (audioContextRef st) (analyserRef st) (sourceRef st)
          (animationIdRef st) (particlesRef st) (prevBarHeightsRef st)
          ws (bassEmaRef st) (lastBeatTsRef st)
          (isPlaying st) (audioStream st) (sourceType st) (errorMsg st).

(** *** drawBars *)

Definition barMaxDelta : Q := 8.

Definition barTarget (height : Q) (f : Z) : Q :=
  (inject_Z f / 255) * height * 0.7.

(** One turn of the [for] loop of [drawBars], on the stored series and the
    calls issued so far. *)
Definition barStep (data : VisualizerData) (width height : Q)
           (acc : list Q * list DrawOp) (i : nat) : list Q * list DrawOp :=
  let '(series, ops) := acc in
  let barCount := length (frequencies data) in
  let barWidth := width / len (frequencies data) in
  let f := nth i (frequencies data) 0%Z in
  let targetHeight := barTarget height f in
  let series :=
    if negb (Nat.eqb (length series) barCount) then fill barCount 0 else series in
  let prev := nth i series 0 in
  let delta := clamp (targetHeight - prev) barMaxDelta in
  let barHeight := prev + delta in
  let series := set_nth i barHeight series in
  let x := inject_Z (Z.of_nat i) * barWidth in
  let y := height - barHeight in
  let hue := (inject_Z (Z.of_nat i) / inject_Z (Z.of_nat barCount)) * 360 in
  let ops := ops ++ [fillRect (gradient hue) 0 x y (barWidth - 1) barHeight] in
  let ops :=
    if (200 <? f)%Z
    then ops ++ [fillRect (gradient hue) 10 x y (barWidth - 1) barHeight]
    else ops in
  (series, ops).

Definition drawBars (st : State) (data : VisualizerData) (width height : Q)
  : State * list DrawOp :=
  let '(series, ops) :=
    fold_left (barStep data width height)
              (seq 0 (length (frequencies data)))
              (prevBarHeightsRef st, []) in
  (set_bars st series, ops).

(** *** drawWaveform *)

Definition waveMaxDelta : Q := 3.

Definition waveTarget (height : Q) (w : Z) : Q :=
  (inject_Z w / 128) * height / 2.

(** One turn of the [for] loop of [drawWaveform], on the stored series, the
    path so far and the running abscissa [x]. *)
Definition waveStep (data : VisualizerData) (sliceWidth height : Q)
           (acc : list Q * list (Q * Q) * Q) (i : nat)
  : list Q * list (Q * Q) * Q :=
  let '(series, path, x) := acc in
  let targetY := waveTarget height (nth i (waveform data) 0%Z) in
  let prev := nth i series 0 in
  let delta := clamp (targetY - prev) waveMaxDelta in
  let y := prev + delta in
  let series := set_nth i y series in
  (series, path ++ [(x, y)], x + sliceWidth).

Definition drawWaveform (st : State) (data : VisualizerData) (width height : Q)
  : State * list DrawOp :=
  let sliceWidth := width / len (waveform data) in
  let series0 :=
    if negb (Nat.eqb (length (prevWaveRef st)) (length (waveform data)))
    then fill (length (waveform data)) (height / 2)
    else prevWaveRef st in
  let '(series, path, _) :=
    fold_left (waveStep data sliceWidth height)
              (seq 0 (length (waveform data)))
              (series0, [], 0) in
  (set_wave st series, [stroke path]).

(** *** drawParticles *)

Definition opacity (p : Particle) : Q := 1 - life p / maxLife p.

Definition drawParticles (st : State) (width height : Q) : list DrawOp :=
  map (fun p => fillArc (opacity p) (color p) (x p) (y p) 2) (particlesRef st).

(** ** animate: one callback of the scheduler *)

(** The burst pushed on a beat; [rnd k] is the [k]-th result of
    [Math.random()] within this tick. *)
Definition burst (width height : Q) (rnd : nat -> Q) : list Particle :=
  map (fun i : nat =>
         createParticle (width / 2) (height / 2) 0.8
                        (rnd (4 * i)%nat) (rnd (4 * i + 1)%nat)
                        (rnd (4 * i + 2)%nat) (rnd (4 * i + 3)%nat))
      (seq 0 6).

Definition spawn (st : State) (data : VisualizerData) (width height : Q)
           (rnd : nat -> Q) : State :=
  if beat data
  then set_particles st (particlesRef st ++ burst width height rnd)
  else st.

Definition set_animationId (st : State) (id : nat) : State :=
  mkState (audioContextRef st) (analyserRef st) (sourceRef st)
          id (particlesRef st) (prevBarHeightsRef st)
          (prevWaveRef st) (bassEmaRef st) (lastBeatTsRef st)
          (isPlaying st) (audioStream st) (sourceType st) (errorMsg st).

(** The outcome of one callback: the new state, what was drawn, and whether
    [requestAnimationFrame(animate)] was reached. *)
Record Tick := mkTick {
  after : State;
  drawn : list DrawOp;
  rescheduled : bool
}.

(** The platform's side of one callback. *)
Record Env := mkEnv {
  canvas : option Canvas;            (* canvasRef.current *)
  frame : Frame;
  now : Q;                           (* performance.now() *)
  random : nat -> Q;                 (* Math.random(), by rank of the call *)
  nextId : nat                       (* result of requestAnimationFrame *)
}.

Definition animate (st : State) (e : Env) : Tick :=
  match canvas e with
  | None => mkTick st [] false
  | Some c =>
      if negb (isPlaying st) then mkTick st [] false
      else if negb (context2d c) then mkTick st [] false
      else
        let width := width c in
        let height := height c in
        let ops0 := [fillRect veil 0 0 0 width height] in
        match analyzeAudio st (frame e) (now e) with
        | None => mkTick st ops0 false
        | Some (data, st) =>
            let st := spawn st data width height (random e) in
            let st := updateParticles st in
            let '(st, ops1) := drawBars st data width height in
            let '(st, ops2) := drawWaveform st data width height in
            let ops3 := drawParticles st width height in
            mkTick (set_animationId st (nextId e))
                   (ops0 ++ ops1 ++ ops2 ++ ops3) true
        end
  end.

(** ** The session: acquisition and stop *)

(** A thrown value: a [DOMException] of the platform or an [Error]. *)
Record Exn := mkExn {
  name : string;
  message : string
}.

(** How the promise of [getUserMedia] or [getDisplayMedia] settles. *)
Inductive MediaResult :=
| rejected (e : Exn)
| resolved (s : MediaStream).

(** One call of [console.error]. *)
Definition LogEntry : Type := string * Exn.

Definition dquote : string := String (Ascii.ascii_of_nat 34) EmptyString.

Definition noAudioError : Exn :=
  mkExn "Error" "No system audio available. Ensure 'Share audio' is enabled.".

Definition notSupportedMsg : string :=
  ("System audio is not supported in this browser or selection. "
   ++ "Try sharing a browser tab and enable " ++ dquote ++ "Share tab audio"
   ++ dquote ++ " or use Chrome on macOS.")%string.

Definition failedMsg : string :=
  "Failed to access system audio. Please try again.".

Definition newAnalyser : AnalyserNode := mkAnalyser 256 0.9.

Definition set_errorMsg (st : State) (msg : string) : State :=
  mkState (audioContextRef st) (analyserRef st) (sourceRef st)
          (animationIdRef st) (particlesRef st) (prevBarHeightsRef st)
          (prevWaveRef st) (bassEmaRef st) (lastBeatTsRef st)
          (isPlaying st) (audioStream st) (sourceType st) msg.

Definition initializeMicrophone (st : State) (r : MediaResult)
  : State * list LogEntry :=
  match r with
  | resolved stream =>
      (mkState true (Some newAnalyser) (Some stream)
               (animationIdRef st) (particlesRef st) (prevBarHeightsRef st)
               (prevWaveRef st) (bassEmaRef st) (lastBeatTsRef st)
               true (Some stream) (Some mic) (errorMsg st),
       [])
  | rejected error =>
      (st, [("Error accessing microphone:"%string, error)])
  end.

(** The [catch] block of [initializeSystemAudio]. *)
Definition systemAudioCatch (st : State) (error : Exn)
  : State * list LogEntry :=
  let message :=
    if String.eqb (name error) "NotSupportedError"
    then notSupportedMsg else failedMsg in
  (set_errorMsg st message,
   [("Error accessing system audio:"%string, error)]).

Definition initializeSystemAudio (st : State) (r : MediaResult)
  : State * list LogEntry :=
  match r with
  | resolved stream =>
      if Nat.eqb (audioTracks stream) 0
      then systemAudioCatch st noAudioError
      else
        (mkState true (Some newAnalyser) (Some stream)
                 (animationIdRef st) (particlesRef st) (prevBarHeightsRef st)
                 (prevWaveRef st) (bassEmaRef st) (lastBeatTsRef st)
                 true (Some stream) (Some system) "",
         [])
  | rejected error => systemAudioCatch st error
  end.

(** [stopAudio]: the tracks are stopped, the source disconnected and the
    context closed, but the three refs keep their (now dead) objects. *)
Definition stopAudio (st : State) : State :=
  mkState (audioContextRef st) (analyserRef st) (sourceRef st)
          (animationIdRef st) (particlesRef st) (prevBarHeightsRef st)
          (prevWaveRef st) (bassEmaRef st) (lastBeatTsRef st)
          false None None "".

(** *** Runs of the component

    A run is any sequence of settled acquisitions, stops and frame
    callbacks.  No order is imposed: a promise may settle after another
    click, and a callback may arrive on a stopped session. *)
Inductive Event :=
| clickMicrophone (r : MediaResult)
| clickSystemAudio (r : MediaResult)
| clickStop
| frameCallback (e : Env).

(** The environment keeps to its contract: random draws lie in [[0,1)]. *)
Definition env_ok (e : Env) : Prop :=
  forall k, 0 <= random e k /\ random e k < 1.

Inductive step : State -> Event -> State -> Prop :=
| step_mic st r :
    step st (clickMicrophone r) (fst (initializeMicrophone st r))
| step_system st r :
    step st (clickSystemAudio r) (fst (initializeSystemAudio st r))
| step_stop st :
    step st clickStop (stopAudio st)
| step_frame st e :
    env_ok e ->
    step st (frameCallback e) (after (animate st e)).

Inductive reachable : State -> Prop :=
| reach_initial : reachable initial
| reach_step st ev st' : reachable st -> step st ev st' -> reachable st'.

(** ** The arithmetic of the source on binary64 floats

    The same expressions as in [barStep], [createParticle] and
    [analyzeAudio], on IEEE doubles as JavaScript evaluates them. *)
Module Binary64.
Import PrimFloat.
#[local] Set Warnings "-inexact-float".

(** [Math.max] and [Math.min] on two numbers that are not [NaN]. *)
Definition max (a b : float) : float := if ltb a b then b else a.
Definition min (a b : float) : float := if ltb b a then b else a.

(** [(data.frequencies[i] / 255) * height * 0.7] *)
Definition barTarget (height f : float) : float :=
  ((f / 255) * height * 0.7)%float.

(** [Math.max(Math.min(d, maxDelta), -maxDelta)] *)
Definition clamp (d maxDelta : float) : float :=
  max (min d maxDelta) (opp maxDelta).

(** [prev + delta], the value [drawBars] and [drawWaveform] store. *)
Definition step (prev target maxDelta : float) : float :=
  (prev + clamp (target - prev) maxDelta)%float.


(** [(1 - alpha) * bassEmaRef.current + alpha * bassLevel] *)
Definition ema (emaBefore bass : float) : float :=
  ((1 - 0.2) * emaBefore + 0.2 * bass)%float.


Definition barMaxDelta : float := 8%float.



(** The average after two ticks of bass 255 from the average 0, and the
    double nearest to the exact value 91.8. *)
Definition emaTwoTicks : float := ema (ema 0 255) 255.
Definition exactTwoTicks : float := 91.8%float.
End Binary64.

(** ** Reference definitions, in the words of the specification *)

Definition zsum (l : list Z) : Z := fold_right Z.add 0%Z l.

(** The arithmetic mean of the snapshot values at the indices [[lo,hi)]. *)
Definition rangeMean (snapshot : list Z) (lo hi : nat) : Q :=
  inject_Z (zsum (map (fun i => nth i snapshot 0%Z) (seq lo (hi - lo))))
  / inject_Z (Z.of_nat (hi - lo)).

(** [v] is the exact mean of the snapshot over [[lo,hi)] and is a byte
    level. *)
Definition bandLevelOf (snapshot : list Z) (lo hi : nat) (v : Q) : Prop :=
  v == rangeMean snapshot lo hi /\ 0 <= v /\ v <= 255.


(** One step of the smoothing filter: for each index [i],
    [delta = clamp(target[i] - current[i], -maxDelta, +maxDelta)] and
    [current[i] += delta]. *)
Definition smoothStep (maxDelta : Q) (target current : list Q) : list Q :=
  map (fun tc => snd tc + clamp (fst tc - snd tc) maxDelta)
      (combine target current).


(** The velocity magnitude of a particle, a real number. *)
Definition speed (p : Particle) : R :=
  sqrt (Q2R (vx p) ^ 2 + Q2R (vy p) ^ 2)%R.

(** The tick in the order of the specification, once the frame sampler has
    delivered [data] and the beat detector has left [st1]: spawn on a beat,
    advance and cull, render (veil, bars, waveform, particles), reschedule. *)
Definition pipeline (c : Canvas) (e : Env) (data : VisualizerData)
           (st1 : State) : Tick :=
  let spawned := spawn st1 data (width c) (height c) (random e) in
  let advanced := updateParticles spawned in
  let bars := drawBars advanced data (width c) (height c) in
  let wave := drawWaveform (fst bars) data (width c) (height c) in
  mkTick (set_animationId (fst wave) (nextId e))
         ([fillRect veil 0 0 0 (width c) (height c)]
            ++ snd bars ++ snd wave
            ++ drawParticles (fst wave) (width c) (height c))
         true.

(** A particle as [createParticle] makes it on a beat: at the given point,
    of age zero, each velocity component within [0.8 / 2 = 0.4], a
    lifetime in [[60,120)], a colour of the palette. *)
Definition freshAt (cx cy : Q) (p : Particle) : Prop :=
  x p == cx /\ y p == cy /\ life p == 0 /\
  (- 0.4 <= vx p /\ vx p <= 0.4) /\
  (- 0.4 <= vy p /\ vy p <= 0.4) /\
  (60 <= maxLife p /\ maxLife p < 120) /\
  (exists col, color p = Some col /\ In col colors).



(** A particle as [drawParticles] may meet it. *)
Definition drawable (p : Particle) : Prop :=
  1 <= life p /\ life p < maxLife p /\ 60 <= maxLife p /\
  0 < opacity p /\ opacity p < 1.

(** ** Auxiliary definitions for the proofs *)

(** The value a loop turn stores at index [i], and the series after it. *)
Definition smoothed (target : nat -> Q) (maxDelta : Q) (series : list Q)
           (i : nat) : Q :=
  nth i series 0 + clamp (target i - nth i series 0) maxDelta.

Definition follow (target : nat -> Q) (maxDelta : Q) (series : list Q)
           (i : nat) : list Q :=
  set_nth i (smoothed target maxDelta series i) series.

(** The guard of [drawBars], met at every turn of its loop. *)
Definition barGuard (barCount : nat) (series : list Q) : list Q :=
  if negb (Nat.eqb (length series) barCount) then fill barCount 0 else series.

(** The targets of the two loops, by index. *)
Definition barTargetAt (data : VisualizerData) (height : Q) (i : nat) : Q :=
  barTarget height (nth i (frequencies data) 0%Z).

Definition waveTargetAt (data : VisualizerData) (height : Q) (i : nat) : Q :=
  waveTarget height (nth i (waveform data) 0%Z).

(** The guard of [drawWaveform], met once before its loop. *)
Definition waveGuard (count : nat) (height : Q) (series : list Q) : list Q :=
  if negb (Nat.eqb (length series) count)
  then fill count (height / 2) else series.

Definition isFillRect (op : DrawOp) : Prop :=
  match op with
  | fillRect _ _ _ _ _ _ => True
  | _ => False
  end.

(** ** Sample inputs *)

(** The two components of a tick's result, for the samples below. *)
Definition dataOf (r : option (VisualizerData * State)) : VisualizerData :=
  match r with
  | Some (data, _) => data
  | None => mkData [] [] 0 0 0 false
  end.

Definition stateOf (st : State) (r : option (VisualizerData * State)) : State :=
  match r with
  | Some (_, st') => st'
  | None => st
  end.

(** A session started from the microphone. *)
Definition playing : State :=
  fst (initializeMicrophone initial (resolved (mkStream 1 0))).

(** A rising spectrum 0, 1, ..., 127 and a silent waveform. *)
Definition rampFrame : Frame :=
  mkFrame (map Z.of_nat (seq 0 128)) (repeat 128%Z 128).

(** What [analyzeAudio] returns for it at time 1000, and the state it
    leaves. *)
Definition rampData : VisualizerData :=
  Eval vm_compute in dataOf (analyzeAudio playing rampFrame 1000).

Definition rampAfter : State :=
  Eval vm_compute in stateOf playing (analyzeAudio playing rampFrame 1000).

(** A spectrum whose ten bass bins all hold [v], the rest silent. *)
Definition bassFrame (v : Z) : Frame :=
  mkFrame (repeat v 10 ++ repeat 0%Z 118) (repeat 128%Z 128).




Definition spike255After : State :=
  Eval vm_compute in stateOf playing (analyzeAudio playing (bassFrame 255) 1000).

(** A session whose two series already have the length of the snapshot. *)
Definition settled : State :=
  set_wave (set_bars playing (fill 128 0)) (fill 128 50).

(** A callback on an 800 x 100 canvas at time 1000 whose bass is 255. *)
Definition beatEnv : Env :=
  mkEnv (Some (mkCanvas 800 100 true)) (bassFrame 255) 1000
        (fun k => if Nat.even k then 0.25 else 0.75) 1.

(** The session after that callback. *)
Definition afterBeat : State := after (animate playing beatEnv).




(** A refused microphone and a shared display without audio track. *)
Definition micDenied : MediaResult :=
  rejected (mkExn "NotAllowedError" "Permission denied").

Definition displayWithoutAudio : MediaResult := resolved (mkStream 0 1).

(** ** Runs as lists of events *)

(** What one event makes of the state. *)
Definition handle (st : State) (ev : Event) : State :=
  match ev with
  | clickMicrophone r => fst (initializeMicrophone st r)
  | clickSystemAudio r => fst (initializeSystemAudio st r)
  | clickStop => stopAudio st
  | frameCallback e => after (animate st e)
  end.

(** The component after a list of events, from its mounting. *)
Definition run (evs : list Event) : State := fold_left handle evs initial.

(** Successive frame callbacks. *)
Definition frames (st : State) (envs : list Env) : State :=
  fold_left (fun s e => after (animate s e)) envs st.

(** The platform keeps to its contract at a callback: random draws in
    [[0,1)] and byte data from the analyser. *)
Definition event_ok (ev : Event) : Prop :=
  match ev with
  | frameCallback e => env_ok e /\ frame_ok (frame e)
  | _ => True
  end.

(** The bins above 200, which [drawBars] paints a second time. *)
Definition countGlow (fs : list Z) : nat :=
  length (filter (fun f => (200 <? f)%Z) fs).

(** The abscissa [drawWaveform] has reached after [i] turns of its loop. *)
Definition abscissa (sliceWidth : Q) (i : nat) : Q :=
  Nat.iter i (fun x => x + sliceWidth) 0.

(** A rectangle of the given width whose lower edge is the lower edge of a
    canvas of the given height. *)
Definition standsOnBottom (height barWidth : Q) (op : DrawOp) : Prop :=
  match op with
  | fillRect _ _ _ y w h => y + h == height /\ w == barWidth
  | _ => False
  end.

(** ** Further sample inputs *)

(** A session start, a beat, a quiet frame, a stop. *)
Definition sampleEvents : list Event :=
  [clickMicrophone (resolved (mkStream 1 0));
   frameCallback beatEnv;
   frameCallback
     (mkEnv (Some (mkCanvas 800 100 true)) (bassFrame 20) 1016
            (fun _ => 0.5) 2);
   clickStop].

(** A particle as [createParticle 400 50 0.8] makes it from the draws
    0.25, 0.75, 0.5, 0.5. *)
Definition sampleParticle : Particle :=
  createParticle 400 50 0.8 0.25 0.75 0.5 0.5.

(** A session whose analyser works on 128 points, hence 64 bins. *)
Definition coarse : State :=
  mkState true (Some (mkAnalyser 128 0.9)) (Some (mkStream 1 0))
          0 [] [] [] 0 0 true (Some (mkStream 1 0)) (Some mic) "".

(** * Properties *)

(** ** Numbers and arrays *)

Lemma Qltb_lt (a b : Q) : Qltb a b = true <-> a < b.
Proof.
  unfold Qltb. rewrite negb_true_iff. split; intro H.
  - apply Qnot_le_lt. intro L. apply Qle_bool_iff in L. congruence.
  - destruct (Qle_bool b a) eqn:E; [|reflexivity].
    apply Qle_bool_iff in E. exfalso. apply (Qlt_not_le _ _ H E).
Qed.

Lemma Qltb_ge (a b : Q) : Qltb a b = false <-> b <= a.
Proof.
  unfold Qltb. rewrite negb_false_iff. apply Qle_bool_iff.
Qed.

Lemma clamp_cases (d m : Q) :
  0 <= m ->
  (d < - m /\ clamp d m == - m) \/
  (- m <= d <= m /\ clamp d m == d) \/
  (m < d /\ clamp d m == m).
Proof.
  intro Hm. unfold clamp.
  destruct (Q.min_spec d m) as [[H1 E1] | [H1 E1]];
  destruct (Q.max_spec (Qmin d m) (- m)) as [[H2 E2] | [H2 E2]].
  - left. split; lra.
  - right; left. split; [split|]; lra.
  - exfalso. lra.
  - destruct (Qlt_le_dec m d) as [L|L].
    + right; right. split; lra.
    + right; left. split; [split|]; lra.
Qed.

Lemma reduce_sum_from (l : list Z) (acc : Q) :
  fold_left (fun sum val => sum + inject_Z val) l acc
  == acc + inject_Z (zsum l).
Proof.
  revert acc. induction l as [|v l IH]; intro acc; simpl.
  - change (inject_Z 0) with 0. lra.
  - rewrite IH. rewrite inject_Z_plus. lra.
Qed.

Lemma reduce_sum_zsum (l : list Z) : reduce_sum l == inject_Z (zsum l).
Proof. unfold reduce_sum. rewrite reduce_sum_from. lra. Qed.

Lemma zsum_bounds (l : list Z) :
  Forall u8 l -> (0 <= zsum l <= 255 * Z.of_nat (length l))%Z.
Proof.
  induction 1 as [|v l Hv _ IH]; simpl zsum; simpl length.
  - lia.
  - unfold u8 in Hv. lia.
Qed.

Lemma skipn_nth_cons {A : Type} (d : A) (l : list A) (n : nat) :
  (n < length l)%nat -> skipn n l = nth n l d :: skipn (S n) l.
Proof.
  revert n. induction l as [|h t IH]; intros [|n] H; simpl in *; try lia.
  - reflexivity.
  - apply IH. lia.
Qed.

Lemma firstn_skipn_nth (l : list Z) (n lo : nat) :
  (lo + n <= length l)%nat ->
  firstn n (skipn lo l) = map (fun i => nth i l 0%Z) (seq lo n).
Proof.
  revert lo. induction n as [|n IH]; intros lo H; simpl.
  - reflexivity.
  - rewrite (skipn_nth_cons 0%Z l lo) by lia.
    cbn [firstn]. f_equal. apply IH. lia.
Qed.

Lemma slice_nth (l : list Z) (lo hi : nat) :
  (lo <= hi)%nat -> (hi <= length l)%nat ->
  slice lo hi l = map (fun i => nth i l 0%Z) (seq lo (hi - lo)).
Proof.
  intros Hlo Hhi. unfold slice. apply firstn_skipn_nth. lia.
Qed.

Lemma slice_length {A : Type} (l : list A) (lo hi : nat) :
  (hi <= length l)%nat -> length (slice lo hi l) = (hi - lo)%nat.
Proof.
  intro H. unfold slice. rewrite length_firstn, length_skipn. lia.
Qed.

Lemma Forall_firstn {A : Type} (P : A -> Prop) (n : nat) (l : list A) :
  Forall P l -> Forall P (firstn n l).
Proof.
  intro H. revert n. induction H; intros [|n]; simpl; auto.
Qed.

Lemma Forall_skipn {A : Type} (P : A -> Prop) (n : nat) (l : list A) :
  Forall P l -> Forall P (skipn n l).
Proof.
  intro H. revert n. induction H; intros [|n]; simpl; auto.
Qed.

Lemma slice_u8 (l : list Z) (lo hi : nat) :
  Forall u8 l -> Forall u8 (slice lo hi l).
Proof.
  intro H. unfold slice. apply Forall_firstn, Forall_skipn, H.
Qed.

Lemma sample_length (n : nat) (src : list Z) : length (sample n src) = n.
Proof.
  unfold sample. rewrite length_app, length_firstn, repeat_length. lia.
Qed.

Lemma sample_u8 (n : nat) (src : list Z) :
  Forall u8 src -> Forall u8 (sample n src).
Proof.
  intro H. unfold sample. apply Forall_app. split.
  - apply Forall_firstn, H.
  - apply Forall_forall. intros v Hv. apply repeat_spec in Hv.
    subst v. unfold u8. lia.
Qed.

(** The mean of a non-empty band of bytes is the integer sum over the
    count, and lies in the byte range. *)
Lemma level_mean (range : list Z) :
  level range == inject_Z (zsum range) / inject_Z (Z.of_nat (length range)).
Proof.
  unfold level, len. rewrite reduce_sum_zsum. reflexivity.
Qed.

Lemma level_bounds (range : list Z) :
  range <> [] -> Forall u8 range -> 0 <= level range /\ level range <= 255.
Proof.
  intros Hne Hu. rewrite level_mean.
  pose proof (zsum_bounds range Hu) as [Hlo Hhi].
  assert (Hn : 0 < inject_Z (Z.of_nat (length range))).
  { change 0 with (inject_Z 0). rewrite <- Zlt_Qlt.
    destruct range; [congruence | simpl length; lia]. }
  split.
  - apply Qle_shift_div_l; [exact Hn|].
    rewrite Qmult_0_l. change 0 with (inject_Z 0). rewrite <- Zle_Qle. exact Hlo.
  - apply Qle_shift_div_r; [exact Hn|].
    change 255 with (inject_Z 255). rewrite <- inject_Z_mult, <- Zle_Qle.
    exact Hhi.
Qed.

(** ** Band aggregator *)

Lemma band_level (fs : list Z) (lo hi : nat) :
  (lo < hi)%nat -> (hi <= length fs)%nat -> Forall u8 fs ->
  bandLevelOf fs lo hi (level (slice lo hi fs)).
Proof.
  intros Hlt Hhi Hu. unfold bandLevelOf. split.
  - rewrite level_mean, slice_length by exact Hhi.
    unfold rangeMean. rewrite slice_nth by lia. reflexivity.
  - apply level_bounds.
    + intro E. apply (f_equal (@length Z)) in E.
      rewrite slice_length in E by exact Hhi. simpl in E. lia.
    + apply slice_u8, Hu.
Qed.

(** C5. For every frequency snapshot of at least 100 bins that
    [analyzeAudio] returns, [bassLevel], [midLevel] and [trebleLevel] are
    the exact arithmetic means of the snapshot over the index ranges
    [[0,10)], [[10,50)] and [[50,100)], and each lies in [[0,255]]. *)
Theorem band_levels_exact_mean (st st' : State) (fr : Frame) (now : Q)
        (data : VisualizerData) :
  frame_ok fr ->
  analyzeAudio st fr now = Some (data, st') ->
  (100 <= length (frequencies data))%nat ->
  bandLevelOf (frequencies data) 0 10 (bassLevel data) /\
  bandLevelOf (frequencies data) 10 50 (midLevel data) /\
  bandLevelOf (frequencies data) 50 100 (trebleLevel data).
Proof.
  intros [Hf _] Hrun Hlen. unfold analyzeAudio in Hrun.
  destruct (analyserRef st) as [a|]; [|discriminate].
  injection Hrun as <- _. simpl in *.
  pose proof (sample_u8 (frequencyBinCount a) _ Hf) as Hu.
  repeat split; apply band_level; try exact Hu; lia.
Qed.

Lemma band_levels_exact_mean_witness :
  bandLevelOf (frequencies rampData) 0 10 (bassLevel rampData) /\
  bandLevelOf (frequencies rampData) 10 50 (midLevel rampData) /\
  bandLevelOf (frequencies rampData) 50 100 (trebleLevel rampData).
Proof.
  apply (band_levels_exact_mean playing rampAfter rampFrame 1000 rampData).
  - split; apply Forall_forall; intros v Hv; unfold u8.
    + apply in_map_iff in Hv. destruct Hv as [k [<- Hk]].
      apply in_seq in Hk. lia.
    + apply repeat_spec in Hv. lia.
  - vm_compute. reflexivity.
  - vm_compute. lia.
Defined.

(** ** Beat detector *)

Lemma analyzeAudio_beat (st st' : State) (fr : Frame) (now : Q)
      (data : VisualizerData) :
  analyzeAudio st fr now = Some (data, st') ->
  bassEmaRef st' = (1 - alpha) * bassEmaRef st + alpha * bassLevel data /\
  beat data = Qltb (bassEmaRef st' + threshold) (bassLevel data)
              && Qltb minInterval (now - lastBeatTsRef st) /\
  lastBeatTsRef st' = (if beat data then now else lastBeatTsRef st).
Proof.
  unfold analyzeAudio. destruct (analyserRef st); [|discriminate].
  intro H. injection H as <- <-. simpl. auto.
Qed.




(** The exact average and the doubles part after two ticks: from 0, two
    ticks of bass 255 give exactly 91.8, and on doubles the next value
    above it.  The statements on the average are statements on the exact
    value; the flag's test is the one of the source on that value. *)
Lemma ema_rounds_after_two_ticks :
  bassEmaRef (stateOf spike255After
                      (analyzeAudio spike255After (bassFrame 255) 2000))
  == 91.8 /\
  PrimFloat.ltb Binary64.exactTwoTicks Binary64.emaTwoTicks = true.
Proof.
  split; vm_compute; reflexivity.
Qed.

(** ** Smoothing filter *)

Lemma set_nth_length {A : Type} (i : nat) (v : A) (l : list A) :
  length (set_nth i v l) = length l.
Proof.
  revert i. induction l as [|h t IH]; intros [|i]; simpl; auto.
Qed.

Lemma set_nth_app {A : Type} (v a : A) (front rest : list A) :
  set_nth (length front) v (front ++ a :: rest) = front ++ v :: rest.
Proof.
  induction front as [|h t IH]; simpl; [reflexivity | f_equal; exact IH].
Qed.

Lemma nth_app_here {A : Type} (d a : A) (front rest : list A) :
  nth (length front) (front ++ a :: rest) d = a.
Proof.
  induction front as [|h t IH]; simpl; [reflexivity | exact IH].
Qed.

(** The index loop shared by [drawBars] and [drawWaveform], for any target
    and any maximal step. *)
Section Follow.
Variable target : nat -> Q.
Variable m : Q.

Lemma follow_length (series : list Q) (i : nat) :
  length (follow target m series i) = length series.
Proof. apply set_nth_length. Qed.

(** The loop over the indices below [k] rewrites the first [k] elements,
    each from its own old value. *)
Lemma follow_fold (series : list Q) (k : nat) :
  (k <= length series)%nat ->
  fold_left (follow target m) (seq 0 k) series
  = map (smoothed target m series) (seq 0 k) ++ skipn k series.
Proof.
  induction k as [|k IH]; intro Hk.
  - reflexivity.
  - rewrite seq_S, fold_left_app, map_app, IH by lia.
    cbn [Nat.add fold_left map].
    rewrite (skipn_nth_cons 0 series k) by lia.
    set (front := map (smoothed target m series) (seq 0 k)).
    assert (Hf : length front = k).
    { unfold front. rewrite length_map, length_seq. reflexivity. }
    clearbody front. clear IH. subst k.
    unfold follow, smoothed.
    rewrite !nth_app_here, set_nth_app, <- app_assoc. reflexivity.
Qed.

Lemma follow_all (series : list Q) :
  fold_left (follow target m) (seq 0 (length series)) series
  = map (smoothed target m series) (seq 0 (length series)).
Proof.
  rewrite follow_fold by lia. rewrite skipn_all, app_nil_r. reflexivity.
Qed.

End Follow.

Lemma smoothStep_nth (m : Q) (target current : list Q) :
  length target = length current ->
  smoothStep m target current
  = map (smoothed (fun i => nth i target 0) m current)
        (seq 0 (length current)).
Proof.
  unfold smoothStep.
  revert target. induction current as [|c cs IH]; intros [|t ts] H;
    simpl in H; try lia; try reflexivity.
  cbn [length seq combine map]. rewrite <- seq_shift, map_map.
  f_equal. apply IH. lia.
Qed.

Lemma smoothStep_length (m : Q) (target current : list Q) :
  length target = length current ->
  length (smoothStep m target current) = length current.
Proof.
  intro H. unfold smoothStep. rewrite length_map, length_combine. lia.
Qed.

Lemma nth_map_seq (f : nat -> Q) (n i : nat) :
  (i < n)%nat -> nth i (map f (seq 0 n)) 0 = f i.
Proof.
  intro H. rewrite (nth_indep _ 0 (f 0%nat)).
  - rewrite map_nth, seq_nth by exact H. reflexivity.
  - rewrite length_map, length_seq. exact H.
Qed.

(** *** The loop of drawBars *)

Lemma barStep_series (data : VisualizerData) (width height : Q)
      (series : list Q) (ops : list DrawOp) (i : nat) :
  fst (barStep data width height (series, ops) i)
  = follow (barTargetAt data height) barMaxDelta
           (barGuard (length (frequencies data)) series) i.
Proof.
  unfold barStep. cbv zeta.
  destruct (200 <? nth i (frequencies data) 0)%Z; reflexivity.
Qed.

Lemma barGuard_same (n : nat) (series : list Q) :
  length series = n -> barGuard n series = series.
Proof.
  intro H. unfold barGuard. rewrite H, Nat.eqb_refl. reflexivity.
Qed.

Lemma barGuard_length (n : nat) (series : list Q) :
  length (barGuard n series) = n.
Proof.
  unfold barGuard. destruct (Nat.eqb (length series) n) eqn:E; simpl.
  - apply Nat.eqb_eq, E.
  - apply repeat_length.
Qed.

Lemma barStep_guard (data : VisualizerData) (width height : Q)
      (series : list Q) (ops : list DrawOp) (i : nat) :
  barStep data width height (series, ops) i
  = barStep data width height
            (barGuard (length (frequencies data)) series, ops) i.
Proof.
  unfold barStep. cbv zeta.
  change (if negb (Nat.eqb (length series) (length (frequencies data)))
          then fill (length (frequencies data)) 0 else series)
    with (barGuard (length (frequencies data)) series).
  change (if negb (Nat.eqb
                     (length (barGuard (length (frequencies data)) series))
                     (length (frequencies data)))
          then fill (length (frequencies data)) 0
          else barGuard (length (frequencies data)) series)
    with (barGuard (length (frequencies data))
                   (barGuard (length (frequencies data)) series)).
  rewrite (barGuard_same _ (barGuard _ series)) by apply barGuard_length.
  reflexivity.
Qed.

Lemma bar_fold_series (data : VisualizerData) (width height : Q)
      (l : list nat) (series : list Q) (ops : list DrawOp) :
  length series = length (frequencies data) ->
  fst (fold_left (barStep data width height) l (series, ops))
  = fold_left (follow (barTargetAt data height) barMaxDelta) l series.
Proof.
  revert series ops. induction l as [|i l IH]; intros series ops H.
  - reflexivity.
  - cbn [fold_left].
    pose proof (barStep_series data width height series ops i) as E.
    destruct (barStep data width height (series, ops) i) as [s1 o1].
    cbn [fst] in E. rewrite barGuard_same in E by exact H. subst s1.
    apply IH. rewrite follow_length. exact H.
Qed.

Lemma drawBars_matching (st : State) (data : VisualizerData) (width height : Q) :
  length (prevBarHeightsRef st) = length (frequencies data) ->
  prevBarHeightsRef (fst (drawBars st data width height))
  = map (smoothed (barTargetAt data height) barMaxDelta (prevBarHeightsRef st))
        (seq 0 (length (frequencies data))).
Proof.
  intro H. unfold drawBars.
  pose proof (bar_fold_series data width height
                (seq 0 (length (frequencies data)))
                (prevBarHeightsRef st) [] H) as E.
  destruct (fold_left _ _ _) as [series ops]. cbn [fst] in E |- *.
  cbn [prevBarHeightsRef set_bars]. rewrite E, <- H. apply follow_all.
Qed.

Lemma drawBars_reinit (st : State) (data : VisualizerData) (width height : Q) :
  frequencies data <> [] ->
  drawBars st data width height
  = drawBars (set_bars st (barGuard (length (frequencies data))
                                    (prevBarHeightsRef st)))
             data width height.
Proof.
  intro Hne. unfold drawBars. cbn [prevBarHeightsRef set_bars].
  assert (Hs : seq 0 (length (frequencies data))
               = 0%nat :: seq 1 (length (frequencies data) - 1)).
  { destruct (frequencies data); [congruence|].
    cbn [length seq]. rewrite Nat.sub_succ, Nat.sub_0_r. reflexivity. }
  rewrite Hs. cbn [fold_left].
  rewrite (barStep_guard data width height (prevBarHeightsRef st) [] 0).
  destruct (fold_left _ _ _) as [series ops]. reflexivity.
Qed.

(** *** The loop of drawWaveform *)

Lemma wave_fold_series (data : VisualizerData) (sliceWidth height : Q)
      (l : list nat) (series : list Q) (path : list (Q * Q)) (x0 : Q) :
  fst (fst (fold_left (waveStep data sliceWidth height) l (series, path, x0)))
  = fold_left (follow (waveTargetAt data height) waveMaxDelta) l series.
Proof.
  revert series path x0. induction l as [|i l IH]; intros series path x0.
  - reflexivity.
  - cbn [fold_left]. unfold waveStep at 2. apply IH.
Qed.

Lemma waveGuard_length (n : nat) (height : Q) (series : list Q) :
  length (waveGuard n height series) = n.
Proof.
  unfold waveGuard. destruct (Nat.eqb (length series) n) eqn:E; simpl.
  - apply Nat.eqb_eq, E.
  - apply repeat_length.
Qed.


Lemma drawWaveform_series (st : State) (data : VisualizerData)
      (width height : Q) :
  prevWaveRef (fst (drawWaveform st data width height))
  = map (smoothed (waveTargetAt data height) waveMaxDelta
                  (waveGuard (length (waveform data)) height (prevWaveRef st)))
        (seq 0 (length (waveform data))).
Proof.
  unfold drawWaveform. cbv zeta.
  change (if negb (Nat.eqb (length (prevWaveRef st)) (length (waveform data)))
          then fill (length (waveform data)) (height / 2)
          else prevWaveRef st)
    with (waveGuard (length (waveform data)) height (prevWaveRef st)).
  set (s0 := waveGuard (length (waveform data)) height (prevWaveRef st)).
  pose proof (wave_fold_series data (width / len (waveform data)) height
                (seq 0 (length (waveform data))) s0 [] 0) as E.
  destruct (fold_left _ _ _) as [[series path] x1]. cbn [fst] in E |- *.
  cbn [prevWaveRef set_wave]. rewrite E.
  assert (Hl : length s0 = length (waveform data))
    by apply waveGuard_length.
  clearbody s0. rewrite <- Hl. apply follow_all.
Qed.

Lemma drawWaveform_reinit (st : State) (data : VisualizerData)
      (width height : Q) :
  drawWaveform st data width height
  = drawWaveform (set_wave st (waveGuard (length (waveform data)) height
                                         (prevWaveRef st)))
                 data width height.
Proof.
  unfold drawWaveform. cbv zeta. cbn [prevWaveRef set_wave].
  change (if negb (Nat.eqb (length (prevWaveRef st)) (length (waveform data)))
          then fill (length (waveform data)) (height / 2)
          else prevWaveRef st)
    with (waveGuard (length (waveform data)) height (prevWaveRef st)).
  rewrite waveGuard_length, Nat.eqb_refl. cbn [negb].
  destruct (fold_left _ _ _) as [[series path] x1]. reflexivity.
Qed.

Lemma drawBars_frame (st : State) (data : VisualizerData) (width height : Q) :
  exists series ops, drawBars st data width height = (set_bars st series, ops).
Proof.
  unfold drawBars. destruct (fold_left _ _ _) as [series ops]. eauto.
Qed.

Lemma drawWaveform_frame (st : State) (data : VisualizerData)
      (width height : Q) :
  exists series ops,
    drawWaveform st data width height = (set_wave st series, ops).
Proof.
  unfold drawWaveform. cbv zeta.
  destruct (fold_left _ _ _) as [[series path] x1]. eauto.
Qed.

Lemma map_smoothed_smoothStep (f : Z -> Q) (l : list Z) (m : Q)
      (series : list Q) :
  length series = length l ->
  map (smoothed (fun i => f (nth i l 0%Z)) m series) (seq 0 (length l))
  = smoothStep m (map f l) series.
Proof.
  intro H. rewrite smoothStep_nth by (rewrite length_map; lia).
  rewrite H. apply map_ext_in. intros i Hi. apply in_seq in Hi.
  unfold smoothed. rewrite (nth_indep (map f l) 0 (f 0%Z)).
  - rewrite map_nth. reflexivity.
  - rewrite length_map. lia.
Qed.




(** C7. When the stored series has not the length of the (non-empty)
    snapshot, [drawBars] restarts from all zeros and [drawWaveform] from the
    mid-line [height / 2]: the call does what it would do on that baseline,
    one rate-limited step away from it, sets no error message, and leaves a
    series of the snapshot's length for the following ticks. *)
Theorem smoothing_reinit (st : State) (data : VisualizerData)
        (width height : Q) :
  frequencies data <> [] ->
  (length (prevBarHeightsRef st) <> length (frequencies data) ->
   drawBars st data width height
   = drawBars (set_bars st (fill (length (frequencies data)) 0))
              data width height /\
   prevBarHeightsRef (fst (drawBars st data width height))
   = smoothStep 8 (map (barTarget height) (frequencies data))
                (fill (length (frequencies data)) 0)) /\
  (length (prevWaveRef st) <> length (waveform data) ->
   drawWaveform st data width height
   = drawWaveform (set_wave st (fill (length (waveform data)) (height / 2)))
                  data width height /\
   prevWaveRef (fst (drawWaveform st data width height))
   = smoothStep 3 (map (waveTarget height) (waveform data))
                (fill (length (waveform data)) (height / 2))) /\
  length (prevBarHeightsRef (fst (drawBars st data width height)))
  = length (frequencies data) /\
  length (prevWaveRef (fst (drawWaveform st data width height)))
  = length (waveform data) /\
  errorMsg (fst (drawBars st data width height)) = errorMsg st /\
  errorMsg (fst (drawWaveform st data width height)) = errorMsg st.
Proof.
  intro Hne.
  assert (Bars : forall s, length (prevBarHeightsRef s) = length (frequencies data) ->
                 prevBarHeightsRef (fst (drawBars s data width height))
                 = smoothStep 8 (map (barTarget height) (frequencies data))
                              (prevBarHeightsRef s)).
  { intros s Hs. rewrite drawBars_matching by exact Hs.
    apply (map_smoothed_smoothStep (barTarget height)). exact Hs. }
  assert (Wave : prevWaveRef (fst (drawWaveform st data width height))
                 = smoothStep 3 (map (waveTarget height) (waveform data))
                     (waveGuard (length (waveform data)) height (prevWaveRef st))).
  { rewrite drawWaveform_series.
    apply (map_smoothed_smoothStep (waveTarget height)).
    apply waveGuard_length. }
  split; [|split; [|split; [|split; [|split]]]].
  - intro Hd.
    assert (E : barGuard (length (frequencies data)) (prevBarHeightsRef st)
                = fill (length (frequencies data)) 0).
    { unfold barGuard. apply Nat.eqb_neq in Hd. rewrite Hd. reflexivity. }
    rewrite (drawBars_reinit st) by exact Hne. rewrite E.
    split; [reflexivity|].
    rewrite Bars by apply repeat_length. reflexivity.
  - intro Hd.
    assert (E : waveGuard (length (waveform data)) height (prevWaveRef st)
                = fill (length (waveform data)) (height / 2)).
    { unfold waveGuard. apply Nat.eqb_neq in Hd. rewrite Hd. reflexivity. }
    split.
    + rewrite (drawWaveform_reinit st), E. reflexivity.
    + rewrite Wave, E. reflexivity.
  - rewrite (drawBars_reinit st) by exact Hne.
    rewrite Bars by apply barGuard_length.
    rewrite smoothStep_length; cbn [prevBarHeightsRef set_bars];
      [|rewrite length_map]; rewrite barGuard_length; reflexivity.
  - rewrite Wave, smoothStep_length; [|rewrite length_map];
      rewrite waveGuard_length; reflexivity.
  - destruct (drawBars_frame st data width height) as (series & ops & E).
    rewrite E. reflexivity.
  - destruct (drawWaveform_frame st data width height) as (series & ops & E).
    rewrite E. reflexivity.
Qed.

Lemma smoothing_reinit_witness :
  drawBars playing rampData 800 100
  = drawBars (set_bars playing (fill (length (frequencies rampData)) 0))
             rampData 800 100 /\
  drawWaveform playing rampData 800 100
  = drawWaveform (set_wave playing
                           (fill (length (waveform rampData)) (100 / 2)))
                 rampData 800 100.
Proof.
  destruct (smoothing_reinit playing rampData 800 100) as (B & W & _).
  - discriminate.
  - split; [apply B | apply W]; vm_compute; discriminate.
Defined.

(** ** Renderer *)

(** C4, as the code has it.  [drawBars] then [drawWaveform] leave the
    particle collection, the beat state (average and last beat time) and
    every session field as they were; the snapshot and its band levels are
    only read.  The smoothed series are the exception: [drawBars] rewrites
    its own series and no other, [drawWaveform] likewise.  [drawParticles]
    returns drawing calls only. *)
Theorem renderer_frame (st : State) (data : VisualizerData) (width height : Q) :
  let st1 := fst (drawBars st data width height) in
  let st2 := fst (drawWaveform st1 data width height) in
  particlesRef st2 = particlesRef st /\
  bassEmaRef st2 = bassEmaRef st /\
  lastBeatTsRef st2 = lastBeatTsRef st /\
  (analyserRef st2, sourceRef st2, audioContextRef st2, animationIdRef st2)
  = (analyserRef st, sourceRef st, audioContextRef st, animationIdRef st) /\
  (isPlaying st2, audioStream st2, sourceType st2, errorMsg st2)
  = (isPlaying st, audioStream st, sourceType st, errorMsg st) /\
  prevWaveRef st1 = prevWaveRef st /\
  prevBarHeightsRef st2 = prevBarHeightsRef st1.
Proof.
  cbv zeta.
  destruct (drawBars_frame st data width height) as (bs & ops1 & E1).
  rewrite E1. cbn [fst].
  destruct (drawWaveform_frame (set_bars st bs) data width height)
    as (ws & ops2 & E2).
  rewrite E2. cbn [fst]. repeat split.
Qed.

(** C4 as stated fails: the draw calls are where the smoothed series are
    stored.  On a session whose bar series is all zeros, [drawBars] leaves
    8 at the last bar; on a fresh session [drawWaveform] replaces the empty
    series by one of 128 values. *)
Lemma renderer_counterexample :
  nth 127 (prevBarHeightsRef settled) 0 == 0 /\
  nth 127 (prevBarHeightsRef (fst (drawBars settled rampData 800 100))) 0 == 8 /\
  length (prevWaveRef playing) = 0%nat /\
  length (prevWaveRef (fst (drawWaveform playing rampData 800 100))) = 128%nat.
Proof.
  repeat split; vm_compute; reflexivity.
Qed.

(** ** Particle system *)

Lemma iter_advance_velocity (p : Particle) (k : nat) :
  (Q2R (vx (Nat.iter k advance p)) = Q2R (vx p) * Q2R 0.98 ^ k)%R /\
  (Q2R (vy (Nat.iter k advance p)) = Q2R (vy p) * Q2R 0.98 ^ k)%R.
Proof.
  induction k as [|k [IHx IHy]]; simpl Nat.iter; cbn [advance vx vy pow].
  - split; ring.
  - rewrite !Q2R_mult, IHx, IHy. split; ring.
Qed.

Lemma iter_advance_life (p : Particle) (k : nat) :
  life (Nat.iter k advance p) == life p + inject_Z (Z.of_nat k) /\
  maxLife (Nat.iter k advance p) = maxLife p.
Proof.
  induction k as [|k [IHl IHm]].
  - simpl Nat.iter. change (inject_Z (Z.of_nat 0)) with 0.
    split; [lra | reflexivity].
  - simpl Nat.iter. cbn [advance life maxLife]. split; [|exact IHm].
    rewrite IHl, Nat2Z.inj_succ. unfold Z.succ. rewrite inject_Z_plus.
    change (inject_Z 1) with 1. lra.
Qed.

Lemma drag_nonneg (k : nat) : (0 <= Q2R 0.98 ^ k)%R.
Proof.
  apply pow_le. unfold Q2R. cbn. Lra.lra.
Qed.

(** C8. One pass of [updateParticles] adds the velocity to the position of
    every particle, multiplies both velocity components by 0.98, raises the
    age by exactly 1, and keeps the particle exactly when its new age is
    below its [maxLife] (drops it when age >= maxLife).  After [k] passes
    the velocity magnitude is the initial one times 0.98^k. *)
Theorem particle_lifecycle (st : State) (p : Particle) (k : nat) :
  (x (advance p) = x p + vx p /\ y (advance p) = y p + vy p) /\
  (vx (advance p) = vx p * 0.98 /\ vy (advance p) = vy p * 0.98) /\
  (life (advance p) = life p + 1 /\ maxLife (advance p) = maxLife p) /\
  particlesRef (updateParticles st)
  = filter alive (map advance (particlesRef st)) /\
  (alive p = false <-> maxLife p <= life p) /\
  (alive p = true <-> life p < maxLife p) /\
  life (Nat.iter k advance p) == life p + inject_Z (Z.of_nat k) /\
  speed (Nat.iter k advance p) = (speed p * Q2R 0.98 ^ k)%R.
Proof.
  repeat split; try reflexivity.
  - apply Qltb_ge.
  - apply Qltb_ge.
  - apply Qltb_lt.
  - apply Qltb_lt.
  - apply iter_advance_life.
  - unfold speed. destruct (iter_advance_velocity p k) as [-> ->].
    pose proof (drag_nonneg k) as Hc.
    set (c := (Q2R 0.98 ^ k)%R) in *.
    replace ((Q2R (vx p) * c) ^ 2 + (Q2R (vy p) * c) ^ 2)%R
      with ((Q2R (vx p) ^ 2 + Q2R (vy p) ^ 2) * (c * c))%R by ring.
    rewrite sqrt_mult.
    + rewrite sqrt_square by exact Hc. reflexivity.
    + Lra.nra.
    + Lra.nra.
Qed.

(** ** One callback of the scheduler *)

Lemma animate_idle (st : State) (e : Env) :
  isPlaying st = false -> animate st e = mkTick st [] false.
Proof.
  intro H. unfold animate. destruct (canvas e); [|reflexivity].
  rewrite H. reflexivity.
Qed.

Lemma animate_runs (st st1 : State) (e : Env) (c : Canvas)
      (data : VisualizerData) :
  canvas e = Some c -> isPlaying st = true -> context2d c = true ->
  analyzeAudio st (frame e) (now e) = Some (data, st1) ->
  animate st e = pipeline c e data st1.
Proof.
  intros Hc Hp Hx Ha. unfold animate, pipeline.
  rewrite Hc, Hp, Hx, Ha. cbn [negb]. cbv zeta.
  destruct (drawBars _ _ _ _) as [sb ob]. cbn [fst snd].
  destruct (drawWaveform _ _ _ _) as [sw ow]. reflexivity.
Qed.

(** Either the callback returns early, with the state as it was and no
    particle drawn, or it runs the pipeline. *)
Lemma animate_cases (st : State) (e : Env) :
  (after (animate st e) = st /\ rescheduled (animate st e) = false /\
   (drawn (animate st e) = [] \/
    exists c, canvas e = Some c /\
              drawn (animate st e) = [fillRect veil 0 0 0 (width c) (height c)]))
  \/
  (exists c data st1,
     canvas e = Some c /\ isPlaying st = true /\ context2d c = true /\
     analyzeAudio st (frame e) (now e) = Some (data, st1) /\
     animate st e = pipeline c e data st1).
Proof.
  destruct (canvas e) as [c|] eqn:Hc.
  2:{ left. unfold animate. rewrite Hc. cbn. repeat split; auto. }
  destruct (isPlaying st) eqn:Hp.
  2:{ left. rewrite animate_idle by exact Hp. cbn. repeat split; auto. }
  destruct (context2d c) eqn:Hx.
  2:{ left. unfold animate. rewrite Hc, Hp, Hx. cbn. repeat split; auto. }
  destruct (analyzeAudio st (frame e) (now e)) as [[data st1]|] eqn:Ha.
  - right. exists c, data, st1. repeat split; try assumption.
    apply animate_runs; assumption.
  - left. unfold animate. rewrite Hc, Hp, Hx, Ha. cbn.
    repeat split; eauto.
Qed.

Lemma analyzeAudio_frame (st st1 : State) (fr : Frame) (t : Q)
      (data : VisualizerData) :
  analyzeAudio st fr t = Some (data, st1) ->
  exists ema ts, st1 = set_beat st ema ts.
Proof.
  unfold analyzeAudio. destruct (analyserRef st); [|discriminate].
  intro H. injection H as _ <-. eauto.
Qed.

Lemma spawn_particles (st : State) (data : VisualizerData) (w h : Q)
      (rnd : nat -> Q) :
  particlesRef (spawn st data w h rnd)
  = if beat data then particlesRef st ++ burst w h rnd else particlesRef st.
Proof. unfold spawn. destruct (beat data); reflexivity. Qed.

Lemma spawn_frame (st : State) (data : VisualizerData) (w h : Q)
      (rnd : nat -> Q) :
  exists ps, spawn st data w h rnd = set_particles st ps.
Proof.
  unfold spawn. destruct (beat data); [eauto|].
  exists (particlesRef st). destruct st; reflexivity.
Qed.

(** Name the state that [drawBars], then [drawWaveform], return in the
    goal, each as its argument with one series replaced. *)
Ltac name_bars :=
  match goal with
  | |- context [drawBars ?s ?d ?w ?h] =>
      let bs := fresh "bs" in
      let ob := fresh "ob" in
      let Eb := fresh "Eb" in
      destruct (drawBars_frame s d w h) as (bs & ob & Eb);
      rewrite Eb; cbn [fst snd]
  end.

Ltac name_wave :=
  match goal with
  | |- context [drawWaveform ?s ?d ?w ?h] =>
      let ws := fresh "ws" in
      let ow := fresh "ow" in
      let Ew := fresh "Ew" in
      destruct (drawWaveform_frame s d w h) as (ws & ow & Ew);
      rewrite Ew; cbn [fst snd]
  end.

(** What the pipeline leaves of the state in which the tick began. *)
Section Pipeline.
Variable c : Canvas.
Variable e : Env.
Variable data : VisualizerData.
Variables st st1 : State.
Hypothesis sampled : analyzeAudio st (frame e) (now e) = Some (data, st1).

(** The particles the pipeline draws and stores. *)
Lemma pipeline_particles :
  particlesRef (after (pipeline c e data st1))
  = filter alive
      (map advance
           (if beat data
            then particlesRef st ++ burst (width c) (height c) (random e)
            else particlesRef st)).
Proof.
  destruct (analyzeAudio_frame _ _ _ _ _ sampled) as (ema & ts & ->).
  unfold pipeline. cbv zeta. cbn [after].
  name_bars. name_wave.
  cbn [particlesRef set_animationId set_wave set_bars].
  unfold updateParticles. cbn [particlesRef set_particles].
  rewrite spawn_particles. reflexivity.
Qed.

Lemma pipeline_session :
  isPlaying (after (pipeline c e data st1)) = isPlaying st /\
  analyserRef (after (pipeline c e data st1)) = analyserRef st /\
  errorMsg (after (pipeline c e data st1)) = errorMsg st.
Proof.
  destruct (analyzeAudio_frame _ _ _ _ _ sampled) as (ema & ts & ->).
  unfold pipeline. cbv zeta. cbn [after].
  destruct (spawn_frame (set_beat st ema ts) data (width c) (height c)
                        (random e)) as (ps & Es).
  rewrite Es. name_bars. name_wave. cbn. auto.
Qed.
End Pipeline.

(** ** Spawning and the particles that are drawn *)

Lemma palette_index (r : Q) :
  0 <= r -> r < 1 ->
  exists col, index colors (Qfloor (r * len colors)) = Some col /\ In col colors.
Proof.
  intros H0 H1. change (len colors) with 6.
  assert (Hlo : (0 <= Qfloor (r * 6))%Z).
  { change 0%Z with (Qfloor 0). apply Qfloor_resp_le. lra. }
  assert (Hhi : (Qfloor (r * 6) < 6)%Z).
  { rewrite Zlt_Qlt. pose proof (Qfloor_le (r * 6)) as F.
    change (inject_Z 6) with 6. lra. }
  assert (C : (Qfloor (r * 6) = 0 \/ Qfloor (r * 6) = 1 \/ Qfloor (r * 6) = 2 \/
               Qfloor (r * 6) = 3 \/ Qfloor (r * 6) = 4 \/ Qfloor (r * 6) = 5)%Z)
    by lia.
  destruct C as [E | [E | [E | [E | [E | E]]]]]; rewrite E;
    eexists; (split; [reflexivity | simpl; tauto]).
Qed.

Lemma createParticle_fresh (cx cy r1 r2 r3 r4 : Q) :
  (0 <= r1 /\ r1 < 1) -> (0 <= r2 /\ r2 < 1) ->
  (0 <= r3 /\ r3 < 1) -> (0 <= r4 /\ r4 < 1) ->
  freshAt cx cy (createParticle cx cy 0.8 r1 r2 r3 r4).
Proof.
  intros [A1 B1] [A2 B2] [A3 B3] [A4 B4].
  unfold freshAt, createParticle. cbn [x y vx vy life maxLife color].
  split; [reflexivity|]. split; [reflexivity|]. split; [reflexivity|].
  split; [split; lra|]. split; [split; lra|]. split; [split; lra|].
  apply palette_index; assumption.
Qed.

Lemma burst_fresh (w h : Q) (rnd : nat -> Q) :
  (forall k, 0 <= rnd k /\ rnd k < 1) ->
  Forall (freshAt (w / 2) (h / 2)) (burst w h rnd).
Proof.
  intro Hr. unfold burst. apply Forall_forall. intros p Hp.
  apply in_map_iff in Hp. destruct Hp as (i & <- & _).
  apply createParticle_fresh; apply Hr.
Qed.

Lemma advance_drawable (p : Particle) :
  0 <= life p -> 60 <= maxLife p -> alive (advance p) = true ->
  drawable (advance p).
Proof.
  intros Hl Hm Ha. apply Qltb_lt in Ha.
  unfold drawable, opacity. cbn [advance life maxLife] in *.
  assert (Hpos : 0 < maxLife p) by lra.
  assert (D1 : (life p + 1) / maxLife p < 1).
  { apply Qlt_shift_div_r; [exact Hpos | lra]. }
  assert (D2 : 0 < (life p + 1) / maxLife p).
  { apply Qlt_shift_div_l; [exact Hpos | lra]. }
  split; [lra|]. split; [lra|]. split; [lra|]. split; lra.
Qed.

Lemma update_drawable (ps : list Particle) :
  Forall (fun p => 0 <= life p /\ 60 <= maxLife p) ps ->
  Forall drawable (filter alive (map advance ps)).
Proof.
  intro H. apply Forall_forall. intros q Hq.
  apply filter_In in Hq. destruct Hq as [Hin Ha].
  apply in_map_iff in Hin. destruct Hin as (p & <- & Hp).
  rewrite Forall_forall in H. destruct (H p Hp) as [Hl Hm].
  apply advance_drawable; assumption.
Qed.

Lemma drawable_aged (p : Particle) :
  drawable p -> 0 <= life p /\ 60 <= maxLife p.
Proof. intros (H1 & _ & H3 & _). split; lra. Qed.

Lemma fresh_aged (cx cy : Q) (p : Particle) :
  freshAt cx cy p -> 0 <= life p /\ 60 <= maxLife p.
Proof. intros (_ & _ & Hl & _ & _ & [Hm _] & _). split; lra. Qed.

(** The pipeline stores, and draws, drawable particles only. *)
Lemma pipeline_drawable (c : Canvas) (e : Env) (data : VisualizerData)
      (st st1 : State) :
  env_ok e -> Forall drawable (particlesRef st) ->
  analyzeAudio st (frame e) (now e) = Some (data, st1) ->
  Forall drawable (particlesRef (after (pipeline c e data st1))).
Proof.
  intros He Hinv Ha. rewrite (pipeline_particles c e data st st1 Ha).
  apply update_drawable.
  assert (Hold : Forall (fun p => 0 <= life p /\ 60 <= maxLife p)
                        (particlesRef st)).
  { eapply Forall_impl; [|exact Hinv]. apply drawable_aged. }
  destruct (beat data); [|exact Hold].
  apply Forall_app. split; [exact Hold|].
  eapply Forall_impl; [|apply (burst_fresh _ _ _ He)].
  intro p. apply fresh_aged.
Qed.

Lemma reachable_inv (st : State) :
  reachable st ->
  Forall drawable (particlesRef st) /\
  (isPlaying st = true -> analyserRef st <> None).
Proof.
  induction 1 as [|st ev st' _ [IHp IHa] Hstep].
  - split; [constructor | discriminate].
  - destruct Hstep as [st r | st r | st | st e He].
    + destruct r; cbn; [|split; [exact IHp | discriminate]].
      split; [exact IHp | exact IHa].
    + destruct r as [err | stream]; cbn.
      * split; [exact IHp | exact IHa].
      * destruct (Nat.eqb (audioTracks stream) 0); cbn;
          split; try exact IHp; try exact IHa; discriminate.
    + split; [exact IHp | discriminate].
    + destruct (animate_cases st e)
        as [(-> & _) | (c & data & st1 & _ & _ & _ & Ha & ->)].
      * split; assumption.
      * destruct (pipeline_session c e data st st1 Ha) as (-> & -> & _).
        split; [|exact IHa].
        apply (pipeline_drawable c e data st st1); assumption.
Qed.

(** In every run the analyser, once there, is the one of 256 points: each
    snapshot has 128 entries. *)
Lemma reachable_analyser (st : State) :
  reachable st ->
  analyserRef st = None \/ analyserRef st = Some newAnalyser.
Proof.
  induction 1 as [|st ev st' _ IH Hstep].
  - left. reflexivity.
  - destruct Hstep as [st r | st r | st | st e He].
    + destruct r; cbn; auto.
    + destruct r as [err | stream]; cbn; auto.
      destruct (Nat.eqb (audioTracks stream) 0); cbn; auto.
    + exact IH.
    + destruct (animate_cases st e)
        as [(-> & _) | (c & data & st1 & _ & _ & _ & Ha & ->)].
      * exact IH.
      * destruct (pipeline_session c e data st st1 Ha) as (_ & -> & _).
        exact IH.
Qed.

Lemma reachable_snapshot (st st1 : State) (fr : Frame) (t : Q)
      (data : VisualizerData) :
  reachable st ->
  analyzeAudio st fr t = Some (data, st1) ->
  length (frequencies data) = 128%nat /\ length (waveform data) = 128%nat.
Proof.
  intros Hr Ha. unfold analyzeAudio in Ha.
  destruct (reachable_analyser st Hr) as [E|E]; rewrite E in Ha;
    [discriminate|].
  injection Ha as <- _. cbn [frequencies waveform].
  rewrite !sample_length. split; reflexivity.
Qed.




Lemma beatEnv_ok : env_ok beatEnv.
Proof.
  intro k. cbn [random beatEnv]. destruct (Nat.even k); split; lra.
Qed.



(** ** What is drawn *)

Lemma barStep_rects (data : VisualizerData) (w h : Q)
      (series : list Q) (ops : list DrawOp) (i : nat) :
  Forall isFillRect ops ->
  Forall isFillRect (snd (barStep data w h (series, ops) i)).
Proof.
  intro H. unfold barStep. cbv zeta.
  destruct (200 <? nth i (frequencies data) 0)%Z; cbn [snd];
    repeat (apply Forall_app; split); try exact H;
    repeat constructor.
Qed.

Lemma bar_fold_rects (data : VisualizerData) (w h : Q) (l : list nat)
      (acc : list Q * list DrawOp) :
  Forall isFillRect (snd acc) ->
  Forall isFillRect (snd (fold_left (barStep data w h) l acc)).
Proof.
  revert acc. induction l as [|i l IH]; intros [series ops] H.
  - exact H.
  - cbn [fold_left]. apply IH. apply barStep_rects. exact H.
Qed.

Lemma drawBars_rects (st : State) (data : VisualizerData) (w h : Q) :
  Forall isFillRect (snd (drawBars st data w h)).
Proof.
  unfold drawBars.
  pose proof (bar_fold_rects data w h (seq 0 (length (frequencies data)))
                (prevBarHeightsRef st, []) (Forall_nil _)) as H.
  destruct (fold_left _ _ _) as [series ops]. exact H.
Qed.

Lemma drawWaveform_stroke (st : State) (data : VisualizerData) (w h : Q) :
  exists path, snd (drawWaveform st data w h) = [stroke path].
Proof.
  unfold drawWaveform. cbv zeta.
  destruct (fold_left _ _ _) as [[series path] x1].
  exists path. reflexivity.
Qed.

(** Every disc the pipeline paints is a particle of the state it leaves. *)
Lemma pipeline_arcs (c : Canvas) (e : Env) (data : VisualizerData)
      (st1 : State) (a : Q) (col : option string) (cx cy r : Q) :
  In (fillArc a col cx cy r) (drawn (pipeline c e data st1)) ->
  exists p, In p (particlesRef (after (pipeline c e data st1))) /\
            a = opacity p.
Proof.
  unfold pipeline. cbv zeta. cbn [drawn after].
  set (bars := drawBars _ data (width c) (height c)).
  set (wave := drawWaveform (fst bars) data (width c) (height c)).
  intro H. apply in_app_or in H. destruct H as [H|H].
  { destruct H as [H|[]]. discriminate H. }
  apply in_app_or in H. destruct H as [H|H].
  { pose proof (drawBars_rects
                  (updateParticles
                     (spawn st1 data (width c) (height c) (random e)))
                  data (width c) (height c)) as R.
    rewrite Forall_forall in R. apply R in H. destruct H. }
  apply in_app_or in H. destruct H as [H|H].
  { destruct (drawWaveform_stroke (fst bars) data (width c) (height c))
      as (path & E).
    fold wave in E. rewrite E in H. destruct H as [H|[]]. discriminate H. }
  unfold drawParticles in H. apply in_map_iff in H.
  destruct H as (p & E & Hp). exists p. split.
  - destruct (fst wave); exact Hp.
  - congruence.
Qed.

(** C10. In every run of the component, whatever the callback draws as a
    particle is a particle of age at least 1 and below its lifetime, the
    lifetime being at least 60, so that its opacity [1 - age / maxLife] lies
    strictly between 0 and 1; the particles the callback leaves behind are
    of that kind as well. *)
Theorem particles_at_draw_time (st : State) (e : Env) :
  reachable st -> env_ok e ->
  Forall drawable (particlesRef (after (animate st e))) /\
  (forall a col cx cy r,
     In (fillArc a col cx cy r) (drawn (animate st e)) ->
     exists p, In p (particlesRef (after (animate st e))) /\
               a = opacity p /\
               (1 <= life p /\ life p < maxLife p /\ 60 <= maxLife p) /\
               (0 < a /\ a < 1)).
Proof.
  intros Hr He.
  assert (Inv : Forall drawable (particlesRef (after (animate st e)))).
  { apply (reachable_inv (after (animate st e))).
    apply (reach_step st (frameCallback e)); [exact Hr|].
    apply step_frame, He. }
  split; [exact Inv|].
  intros a col cx cy r Hin.
  destruct (animate_cases st e)
    as [(_ & _ & [D | (c & _ & D)]) | (c & data & st1 & _ & _ & _ & _ & Run)].
  - rewrite D in Hin. destruct Hin.
  - rewrite D in Hin. destruct Hin as [Hin|[]]. discriminate Hin.
  - rewrite Run in Hin, Inv |- *.
    destruct (pipeline_arcs _ _ _ _ _ _ _ _ _ Hin) as (p & Hp & Ea).
    exists p. split; [exact Hp|]. split; [exact Ea|].
    rewrite Forall_forall in Inv.
    destruct (Inv p Hp) as (H1 & H2 & H3 & H4 & H5).
    subst a. auto.
Qed.

Lemma playing_reachable : reachable playing.
Proof.
  apply (reach_step initial (clickMicrophone (resolved (mkStream 1 0)))).
  - apply reach_initial.
  - apply step_mic.
Qed.

Lemma afterBeat_reachable : reachable afterBeat.
Proof.
  apply (reach_step playing (frameCallback beatEnv)).
  - apply playing_reachable.
  - apply step_frame, beatEnv_ok.
Qed.

Lemma particles_at_draw_time_witness :
  Forall drawable (particlesRef (after (animate afterBeat beatEnv))) /\
  (forall a col cx cy r,
     In (fillArc a col cx cy r) (drawn (animate afterBeat beatEnv)) ->
     exists p, In p (particlesRef (after (animate afterBeat beatEnv))) /\
               a = opacity p /\
               (1 <= life p /\ life p < maxLife p /\ 60 <= maxLife p) /\
               (0 < a /\ a < 1)).
Proof.
  apply (particles_at_draw_time afterBeat beatEnv).
  - exact afterBeat_reachable.
  - exact beatEnv_ok.
Defined.

(** ** Frame sampler and scheduler *)

(** C3. Without an analyser [analyzeAudio] returns no data, and the
    callback then returns with the state (error message included) as it
    was, having painted at most the veil, and requests no further frame.
    A callback on an idle session does nothing.  In every run of the
    component, a callback on a playing session whose canvas and 2D context
    are there gets its data, runs the whole pipeline and requests the next
    frame. *)
Theorem scheduler_tick (st : State) (e : Env) :
  (analyserRef st = None ->
   analyzeAudio st (frame e) (now e) = None /\
   after (animate st e) = st /\
   rescheduled (animate st e) = false /\
   (drawn (animate st e) = [] \/
    exists c, drawn (animate st e)
              = [fillRect veil 0 0 0 (width c) (height c)])) /\
  (isPlaying st = false -> animate st e = mkTick st [] false) /\
  (reachable st -> isPlaying st = true ->
   forall c, canvas e = Some c -> context2d c = true ->
   exists data st1,
     analyzeAudio st (frame e) (now e) = Some (data, st1) /\
     animate st e = pipeline c e data st1 /\
     rescheduled (animate st e) = true /\
     animationIdRef (after (animate st e)) = nextId e).
Proof.
  split; [|split].
  - intro Hn.
    assert (Ha : analyzeAudio st (frame e) (now e) = None).
    { unfold analyzeAudio. rewrite Hn. reflexivity. }
    split; [exact Ha|].
    destruct (animate_cases st e)
      as [(A & R & [D | (c & _ & D)]) | (c & data & st1 & _ & _ & _ & Ha' & _)].
    + auto.
    + split; [exact A|]. split; [exact R|]. right. exists c. exact D.
    + congruence.
  - apply animate_idle.
  - intros Hr Hp c Hc Hx.
    destruct (reachable_inv st Hr) as [_ Hinv].
    destruct (analyzeAudio st (frame e) (now e)) as [[data st1]|] eqn:Ha.
    + exists data, st1. split; [reflexivity|].
      pose proof (animate_runs st st1 e c data Hc Hp Hx Ha) as Run.
      split; [exact Run|]. rewrite Run.
      unfold pipeline. cbv zeta. cbn [rescheduled after].
      split; [reflexivity|].
      destruct (fst (drawWaveform _ _ _ _)); reflexivity.
    + exfalso. unfold analyzeAudio in Ha.
      destruct (analyserRef st); [discriminate | exact (Hinv Hp eq_refl)].
Qed.

Lemma scheduler_tick_witness :
  (exists data st1,
     analyzeAudio playing (frame beatEnv) (now beatEnv) = Some (data, st1) /\
     animate playing beatEnv = pipeline (mkCanvas 800 100 true) beatEnv data st1 /\
     rescheduled (animate playing beatEnv) = true /\
     animationIdRef (after (animate playing beatEnv)) = nextId beatEnv) /\
  after (animate initial beatEnv) = initial /\
  rescheduled (animate initial beatEnv) = false.
Proof.
  split.
  - destruct (scheduler_tick playing beatEnv) as (_ & _ & Run).
    apply Run; [exact playing_reachable | reflexivity..].
  - destruct (scheduler_tick initial beatEnv) as (Skip & _ & _).
    destruct (Skip eq_refl) as (_ & A & R & _). split; assumption.
Defined.

(** ** Acquisition *)

(** C2, as the code behaves on failed acquisitions.  A rejected
    [getUserMedia] leaves the whole state as it was, error message
    included: nothing is shown.  A rejected [getDisplayMedia], and a shared
    display without audio track, leave the state as it was except for the
    error message, which is the "not supported" text for a
    [NotSupportedError] and the general "Failed to access system audio"
    text otherwise; the text of the error thrown for the missing track goes
    to the console only. *)
Theorem acquisition_failure (st : State) (err : Exn) (videos : nat) :
  initializeMicrophone st (rejected err)
  = (st, [("Error accessing microphone:"%string, err)]) /\
  errorMsg (fst (initializeMicrophone initial micDenied)) = ""%string /\
  fst (initializeSystemAudio st (rejected err))
  = set_errorMsg st (if String.eqb (name err) "NotSupportedError"
                     then notSupportedMsg else failedMsg) /\
  initializeSystemAudio st (resolved (mkStream 0 videos))
  = (set_errorMsg st failedMsg,
     [("Error accessing system audio:"%string, noAudioError)]) /\
  failedMsg <> message noAudioError /\
  (isPlaying (fst (initializeSystemAudio initial displayWithoutAudio)) = false /\
   analyserRef (fst (initializeSystemAudio initial displayWithoutAudio)) = None /\
   audioStream (fst (initializeSystemAudio initial displayWithoutAudio)) = None).
Proof.
  repeat split; try reflexivity. discriminate.
Qed.

(** * Further properties of the code *)

(** ** Runs *)

Lemma handle_step (st : State) (ev : Event) :
  event_ok ev -> step st ev (handle st ev).
Proof.
  destruct ev as [r | r | | e]; intro H; cbn [handle].
  - apply step_mic.
  - apply step_system.
  - apply step_stop.
  - apply step_frame. exact (proj1 H).
Qed.

Lemma fold_handle_reachable (evs : list Event) (st : State) :
  reachable st -> Forall event_ok evs -> reachable (fold_left handle evs st).
Proof.
  revert st. induction evs as [|ev evs IH]; intros st Hr Hok; cbn [fold_left].
  - exact Hr.
  - inversion Hok as [|? ? Hev Hrest]; subst.
    apply IH; [|exact Hrest].
    apply (reach_step st ev); [exact Hr | apply handle_step, Hev].
Qed.

Lemma run_reachable (evs : list Event) :
  Forall event_ok evs -> reachable (run evs).
Proof. apply fold_handle_reachable, reach_initial. Qed.

(** An invariant kept by every event is kept by every run. *)
Lemma fold_handle_invariant (P : State -> Prop) (evs : list Event) (st : State) :
  (forall s ev, reachable s -> event_ok ev -> P s -> P (handle s ev)) ->
  reachable st -> P st -> Forall event_ok evs ->
  P (fold_left handle evs st).
Proof.
  intro Hkeep. revert st.
  induction evs as [|ev evs IH]; intros st Hr HP Hok; cbn [fold_left].
  - exact HP.
  - inversion Hok as [|? ? Hev Hrest]; subst.
    apply IH; [| |exact Hrest].
    + apply (reach_step st ev); [exact Hr | apply handle_step, Hev].
    + apply Hkeep; assumption.
Qed.

(** ** The average and the beat *)

Section PipelineBeat.
Variable c : Canvas.
Variable e : Env.
Variable data : VisualizerData.
Variables st st1 : State.
Hypothesis sampled : analyzeAudio st (frame e) (now e) = Some (data, st1).

Lemma pipeline_beat_state :
  bassEmaRef (after (pipeline c e data st1)) = bassEmaRef st1 /\
  lastBeatTsRef (after (pipeline c e data st1)) = lastBeatTsRef st1.
Proof.
  unfold pipeline. cbv zeta. cbn [after].
  destruct (spawn_frame st1 data (width c) (height c) (random e))
    as (ps & Es).
  rewrite Es. name_bars. name_wave. cbn. auto.
Qed.
End PipelineBeat.

Lemma slice_nonempty (l : list Z) (hi : nat) :
  l <> [] -> (0 < hi)%nat -> slice 0 hi l <> [].
Proof.
  intros Hl Hhi. unfold slice. cbn [skipn]. rewrite Nat.sub_0_r.
  destruct l; [congruence|]. destruct hi; [lia|]. discriminate.
Qed.

Lemma analyzeAudio_bass (st st1 : State) (fr : Frame) (t : Q)
      (data : VisualizerData) :
  frame_ok fr -> frequencies data <> [] ->
  analyzeAudio st fr t = Some (data, st1) ->
  0 <= bassLevel data /\ bassLevel data <= 255.
Proof.
  intros [Hf _] Hne Ha. unfold analyzeAudio in Ha.
  destruct (analyserRef st) as [a|]; [|discriminate].
  injection Ha as <- _. cbn [frequencies bassLevel] in *.
  apply level_bounds.
  - apply slice_nonempty; [exact Hne | lia].
  - apply slice_u8, sample_u8, Hf.
Qed.

Lemma analyzeAudio_ema_range (st st1 : State) (fr : Frame) (t : Q)
      (data : VisualizerData) :
  frame_ok fr -> frequencies data <> [] ->
  analyzeAudio st fr t = Some (data, st1) ->
  0 <= bassEmaRef st /\ bassEmaRef st <= 255 ->
  0 <= bassEmaRef st1 /\ bassEmaRef st1 <= 255.
Proof.
  intros Hf Hne Ha [H0 H1].
  destruct (analyzeAudio_bass _ _ _ _ _ Hf Hne Ha) as [B0 B1].
  destruct (analyzeAudio_beat _ _ _ _ _ Ha) as (-> & _ & _).
  unfold alpha. split; lra.
Qed.

Lemma handle_ema_range (st : State) (ev : Event) :
  reachable st -> event_ok ev ->
  0 <= bassEmaRef st /\ bassEmaRef st <= 255 ->
  0 <= bassEmaRef (handle st ev) /\ bassEmaRef (handle st ev) <= 255.
Proof.
  intros Hr Hev Hin. destruct ev as [r | r | | e]; cbn [handle].
  - destruct r; exact Hin.
  - destruct r as [err | stream]; cbn; [exact Hin|].
    destruct (Nat.eqb (audioTracks stream) 0); exact Hin.
  - exact Hin.
  - destruct Hev as [_ Hf].
    destruct (animate_cases st e)
      as [(-> & _) | (c & data & st1 & _ & _ & _ & Ha & ->)];
      [exact Hin|].
    destruct (pipeline_beat_state c e data st1) as [-> _].
    apply (analyzeAudio_ema_range st st1 (frame e) (now e) data);
      try assumption.
    destruct (reachable_snapshot _ _ _ _ _ Hr Ha) as [L _].
    intro E. rewrite E in L. discriminate L.
Qed.

Lemma run_ema_range (evs : list Event) :
  Forall event_ok evs ->
  0 <= bassEmaRef (run evs) /\ bassEmaRef (run evs) <= 255.
Proof.
  intro Hok. unfold run.
  apply (fold_handle_invariant
           (fun s => 0 <= bassEmaRef s /\ bassEmaRef s <= 255)).
  - intros s ev. apply handle_ema_range.
  - apply reach_initial.
  - cbn. split; lra.
  - exact Hok.
Qed.

Lemma bassFrame_ok (v : Z) : u8 v -> frame_ok (bassFrame v).
Proof.
  intro Hv. unfold frame_ok, bassFrame. cbn [byteFrequencyData byteTimeDomainData].
  split.
  - apply Forall_app. split; apply Forall_forall; intros w Hw;
      apply repeat_spec in Hw; subst w; [exact Hv | unfold u8; lia].
  - apply Forall_forall. intros w Hw. apply repeat_spec in Hw. subst w.
    unfold u8. lia.
Qed.

Lemma sampleEvents_ok : Forall event_ok sampleEvents.
Proof.
  unfold sampleEvents.
  apply Forall_cons; [exact I|].
  apply Forall_cons.
  { split; [exact beatEnv_ok | apply bassFrame_ok; unfold u8; lia]. }
  apply Forall_cons.
  { split; [|apply bassFrame_ok; unfold u8; lia].
    intro k. cbn [random]. split; lra. }
  apply Forall_cons; [exact I | apply Forall_nil].
Qed.

(** X1. Whatever bytes the analyser delivers, the running average of the
    bass stays within the byte range [[0,255]] throughout a run. *)
Theorem ema_stays_in_range (evs : list Event) :
  Forall event_ok evs ->
  0 <= bassEmaRef (run evs) /\ bassEmaRef (run evs) <= 255.
Proof. exact (run_ema_range evs). Qed.

Lemma ema_stays_in_range_witness :
  0 <= bassEmaRef (run sampleEvents) /\ bassEmaRef (run sampleEvents) <= 255.
Proof.
  apply (ema_stays_in_range sampleEvents). exact sampleEvents_ok.
Defined.

(** X2. In a run, a tick whose bass level is at most 43.75 never flags a
    beat, whatever the time and whatever came before: the average is never
    negative, and the updated average plus 35 is then at least the bass. *)
Theorem quiet_bass_never_beats (evs : list Event) (fr : Frame) (t : Q)
        (data : VisualizerData) (st1 : State) :
  Forall event_ok evs ->
  analyzeAudio (run evs) fr t = Some (data, st1) ->
  bassLevel data <= 43.75 ->
  beat data = false.
Proof.
  intros Hok Ha Hq.
  destruct (run_ema_range evs Hok) as [H0 _].
  destruct (analyzeAudio_beat _ _ _ _ _ Ha) as (Hema & Hbeat & _).
  rewrite Hbeat. apply andb_false_iff. left. apply Qltb_ge.
  rewrite Hema. unfold alpha, threshold. lra.
Qed.

Lemma quiet_bass_never_beats_witness :
  beat (dataOf (analyzeAudio (run [clickMicrophone (resolved (mkStream 1 0))])
                             (bassFrame 43) 5000)) = false.
Proof.
  apply (quiet_bass_never_beats
           [clickMicrophone (resolved (mkStream 1 0))] (bassFrame 43) 5000
           (dataOf (analyzeAudio playing (bassFrame 43) 5000))
           (stateOf playing (analyzeAudio playing (bassFrame 43) 5000))).
  - apply Forall_cons; [exact I | apply Forall_nil].
  - vm_compute. reflexivity.
  - vm_compute. congruence.
Defined.

(** ** Bursts *)

Lemma filter_length_bound {A : Type} (f : A -> bool) (l : list A) :
  (length (filter f l) <= length l)%nat.
Proof.
  induction l as [|a l IH]; simpl; [lia|]. destruct (f a); simpl; lia.
Qed.

Lemma animate_particle_count (st : State) (e : Env) :
  (length (particlesRef (after (animate st e)))
   <= length (particlesRef st) + 6)%nat /\
  (now e - lastBeatTsRef st <= 180 ->
   lastBeatTsRef (after (animate st e)) = lastBeatTsRef st /\
   (length (particlesRef (after (animate st e)))
    <= length (particlesRef st))%nat).
Proof.
  destruct (animate_cases st e)
    as [(-> & _) | (c & data & st1 & _ & _ & _ & Ha & ->)].
  - split; [lia | intros _; split; [reflexivity | lia]].
  - rewrite (pipeline_particles c e data st st1 Ha).
    destruct (pipeline_beat_state c e data st1) as [_ ->].
    destruct (analyzeAudio_beat _ _ _ _ _ Ha) as (_ & Hbeat & Hts).
    split.
    + eapply Nat.le_trans; [apply filter_length_bound|].
      rewrite length_map. destruct (beat data); [|lia].
      rewrite length_app. cbn. lia.
    + intro Hnear.
      assert (Hb : beat data = false).
      { rewrite Hbeat. apply andb_false_iff. right. apply Qltb_ge.
        unfold minInterval. exact Hnear. }
      rewrite Hts, Hb. split; [reflexivity|].
      eapply Nat.le_trans; [apply filter_length_bound|].
      rewrite length_map. lia.
Qed.

(** X3. One callback adds at most six particles to the collection. *)
Theorem tick_adds_at_most_six (st : State) (e : Env) :
  (length (particlesRef (after (animate st e)))
   <= length (particlesRef st) + 6)%nat.
Proof. apply animate_particle_count. Qed.

(** X4. Over any sequence of callbacks that all come within 180 ms of the
    last beat, no beat is flagged: the last beat time stays as it was and
    the particle collection does not grow. *)
Theorem cooldown_over_frames (st : State) (envs : list Env) :
  Forall (fun e => now e - lastBeatTsRef st <= 180) envs ->
  lastBeatTsRef (frames st envs) = lastBeatTsRef st /\
  (length (particlesRef (frames st envs)) <= length (particlesRef st))%nat.
Proof.
  unfold frames. revert st.
  induction envs as [|e envs IH]; intros st Hall; cbn [fold_left].
  - split; [reflexivity | lia].
  - inversion Hall as [|? ? He Hrest]; subst.
    destruct (animate_particle_count st e) as [_ Hstep].
    destruct (Hstep He) as [Hts Hlen].
    destruct (IH (after (animate st e))) as [IHts IHlen].
    + rewrite Hts. exact Hrest.
    + split; [congruence | lia].
Qed.

Lemma cooldown_over_frames_witness :
  lastBeatTsRef (frames afterBeat [beatEnv; beatEnv]) = lastBeatTsRef afterBeat /\
  (length (particlesRef (frames afterBeat [beatEnv; beatEnv]))
   <= length (particlesRef afterBeat))%nat.
Proof.
  apply (cooldown_over_frames afterBeat [beatEnv; beatEnv]).
  apply Forall_cons; [vm_compute; congruence|].
  apply Forall_cons; [vm_compute; congruence | apply Forall_nil].
Defined.

(** ** The life of a particle *)

Lemma sampleParticle_fresh : freshAt 400 50 sampleParticle.
Proof.
  apply createParticle_fresh; split; lra.
Qed.

Lemma alive_iter (p : Particle) (k : nat) :
  alive (Nat.iter k advance p) = true
  <-> life p + inject_Z (Z.of_nat k) < maxLife p.
Proof.
  unfold alive. rewrite Qltb_lt.
  destruct (iter_advance_life p k) as [-> ->]. reflexivity.
Qed.

(** X5. A particle made by [createParticle] passes the test of
    [updateParticles] at its [k]-th pass exactly when [k] is below its
    lifetime; so it passes each of its first 59 passes and none from the
    120th on. *)
Theorem particle_lifetime_window (cx cy : Q) (p : Particle) (k : nat) :
  freshAt cx cy p ->
  (alive (Nat.iter k advance p) = true
   <-> inject_Z (Z.of_nat k) < maxLife p) /\
  ((k <= 59)%nat -> alive (Nat.iter k advance p) = true) /\
  ((120 <= k)%nat -> alive (Nat.iter k advance p) = false).
Proof.
  intros (_ & _ & Hl & _ & _ & [Hlo Hhi] & _).
  assert (W : alive (Nat.iter k advance p) = true
              <-> inject_Z (Z.of_nat k) < maxLife p).
  { rewrite alive_iter. split; intro H; lra. }
  split; [exact W|]. split.
  - intro Hk. apply W.
    assert (inject_Z (Z.of_nat k) <= 59).
    { change 59 with (inject_Z 59). rewrite <- Zle_Qle. lia. }
    lra.
  - intro Hk. destruct (alive (Nat.iter k advance p)) eqn:E; [|reflexivity].
    exfalso. destruct W as [W _]. specialize (W eq_refl).
    assert (120 <= inject_Z (Z.of_nat k)).
    { change 120 with (inject_Z 120). rewrite <- Zle_Qle. lia. }
    lra.
Qed.

Lemma particle_lifetime_window_witness :
  (alive (Nat.iter 59 advance sampleParticle) = true
   <-> inject_Z (Z.of_nat 59) < maxLife sampleParticle) /\
  ((59 <= 59)%nat -> alive (Nat.iter 59 advance sampleParticle) = true) /\
  ((120 <= 59)%nat -> alive (Nat.iter 59 advance sampleParticle) = false).
Proof.
  apply (particle_lifetime_window 400 50 sampleParticle 59).
  exact sampleParticle_fresh.
Defined.

(** Lifetimes in a run stay below 120. *)
Lemma burst_lifetimes (w h : Q) (rnd : nat -> Q) :
  (forall k, 0 <= rnd k /\ rnd k < 1) ->
  Forall (fun p => maxLife p < 120) (burst w h rnd).
Proof.
  intro Hr. eapply Forall_impl; [|apply (burst_fresh w h rnd Hr)].
  intros p (_ & _ & _ & _ & _ & [_ H] & _). exact H.
Qed.

Lemma update_lifetimes (ps : list Particle) :
  Forall (fun p => maxLife p < 120) ps ->
  Forall (fun p => maxLife p < 120) (filter alive (map advance ps)).
Proof.
  intro H. apply Forall_forall. intros q Hq.
  apply filter_In in Hq. destruct Hq as [Hin _].
  apply in_map_iff in Hin. destruct Hin as (p & <- & Hp).
  rewrite Forall_forall in H. exact (H p Hp).
Qed.

Lemma reachable_lifetimes (st : State) :
  reachable st -> Forall (fun p => maxLife p < 120) (particlesRef st).
Proof.
  induction 1 as [|st ev st' _ IH Hstep].
  - constructor.
  - destruct Hstep as [st r | st r | st | st e He].
    + destruct r; exact IH.
    + destruct r as [err | stream]; cbn; [exact IH|].
      destruct (Nat.eqb (audioTracks stream) 0); exact IH.
    + exact IH.
    + destruct (animate_cases st e)
        as [(-> & _) | (c & data & st1 & _ & _ & _ & Ha & ->)];
        [exact IH|].
      rewrite (pipeline_particles c e data st st1 Ha).
      apply update_lifetimes. destruct (beat data); [|exact IH].
      apply Forall_app. split; [exact IH | apply burst_lifetimes, He].
Qed.

(** After [k] passes every particle left is at least [k] old. *)
Lemma update_iter_ages (st : State) (k : nat) :
  Forall (fun p => 0 <= life p /\ maxLife p < 120) (particlesRef st) ->
  Forall (fun p => inject_Z (Z.of_nat k) <= life p /\ maxLife p < 120 /\
                   ((0 < k)%nat -> life p < maxLife p))
         (particlesRef (Nat.iter k updateParticles st)).
Proof.
  intro H0. induction k as [|k IH].
  - simpl Nat.iter. eapply Forall_impl; [|exact H0].
    intros p [Hl Hm]. change (inject_Z (Z.of_nat 0)) with 0.
    split; [exact Hl|]. split; [exact Hm | lia].
  - simpl Nat.iter. unfold updateParticles at 1.
    cbn [particlesRef set_particles].
    apply Forall_forall. intros q Hq.
    apply filter_In in Hq. destruct Hq as [Hin Ha].
    apply in_map_iff in Hin. destruct Hin as (p & <- & Hp).
    rewrite Forall_forall in IH. destruct (IH p Hp) as (Hl & Hm & _).
    apply Qltb_lt in Ha. cbn [advance life maxLife] in *.
    rewrite Nat2Z.inj_succ. unfold Z.succ. rewrite inject_Z_plus.
    change (inject_Z 1) with 1.
    split; [lra|]. split; [exact Hm | intros _; exact Ha].
Qed.

(** X6. In every run, 120 passes of [updateParticles] without a new burst
    leave no particle. *)
Theorem particles_expire (st : State) :
  reachable st ->
  particlesRef (Nat.iter 120 updateParticles st) = [].
Proof.
  intro Hr.
  assert (H0 : Forall (fun p => 0 <= life p /\ maxLife p < 120)
                      (particlesRef st)).
  { pose proof (reachable_lifetimes st Hr) as Hm.
    destruct (reachable_inv st Hr) as [Hd _].
    rewrite Forall_forall in Hm, Hd. apply Forall_forall. intros p Hp.
    destruct (Hd p Hp) as (H1 & _). split; [lra | exact (Hm p Hp)]. }
  pose proof (update_iter_ages st 120 H0) as H.
  destruct (particlesRef (Nat.iter 120 updateParticles st)) as [|p ps];
    [reflexivity|].
  exfalso. apply Forall_inv in H. destruct H as (Hl & Hm & Ha).
  assert (Hlt : life p < maxLife p) by (apply Ha; lia).
  change (inject_Z (Z.of_nat 120)) with 120 in Hl. lra.
Qed.

Lemma particles_expire_witness :
  particlesRef (Nat.iter 120 updateParticles afterBeat) = [].
Proof.
  apply (particles_expire afterBeat). exact afterBeat_reachable.
Defined.

(** The quantity [x + 50 * vx] is kept by a pass, and the velocity keeps
    its sign and does not grow. *)
Lemma advance_drift (p : Particle) (k : nat) :
  x (Nat.iter k advance p) + 50 * vx (Nat.iter k advance p)
  == x p + 50 * vx p /\
  y (Nat.iter k advance p) + 50 * vy (Nat.iter k advance p)
  == y p + 50 * vy p.
Proof.
  induction k as [|k [IHx IHy]]; simpl Nat.iter.
  - split; reflexivity.
  - cbn [advance x y vx vy]. split; lra.
Qed.

Lemma advance_velocity_sign (p : Particle) (k : nat) :
  ((0 <= vx p -> 0 <= vx (Nat.iter k advance p) <= vx p) /\
   (vx p <= 0 -> vx p <= vx (Nat.iter k advance p) <= 0)) /\
  ((0 <= vy p -> 0 <= vy (Nat.iter k advance p) <= vy p) /\
   (vy p <= 0 -> vy p <= vy (Nat.iter k advance p) <= 0)).
Proof.
  induction k as [|k [[IH1 IH2] [IH3 IH4]]]; simpl Nat.iter.
  - repeat split; intros; lra.
  - cbn [advance vx vy].
    split; split; intro H;
      [specialize (IH1 H) | specialize (IH2 H)
       | specialize (IH3 H) | specialize (IH4 H)]; split; lra.
Qed.

(** X7. A particle spawned at a point never drifts more than 20 pixels
    from it on either axis, however many passes it lives: the drag makes
    its total displacement at most 50 times its initial velocity. *)
Theorem particle_drift_bounded (cx cy : Q) (p : Particle) (k : nat) :
  freshAt cx cy p ->
  Qabs (x (Nat.iter k advance p) - cx) <= 20 /\
  Qabs (y (Nat.iter k advance p) - cy) <= 20.
Proof.
  intros (Hx & Hy & _ & [Vx0 Vx1] & [Vy0 Vy1] & _).
  destruct (advance_drift p k) as [Dx Dy].
  destruct (advance_velocity_sign p k) as [[Px Nx] [Py Ny]].
  split; apply Qabs_Qle_condition.
  - destruct (Qlt_le_dec (vx p) 0) as [S|S].
    + assert (S' : vx p <= 0) by lra. specialize (Nx S'). split; lra.
    + specialize (Px S). split; lra.
  - destruct (Qlt_le_dec (vy p) 0) as [S|S].
    + assert (S' : vy p <= 0) by lra. specialize (Ny S'). split; lra.
    + specialize (Py S). split; lra.
Qed.

Lemma particle_drift_bounded_witness :
  Qabs (x (Nat.iter 100 advance sampleParticle) - 400) <= 20 /\
  Qabs (y (Nat.iter 100 advance sampleParticle) - 50) <= 20.
Proof.
  apply (particle_drift_bounded 400 50 sampleParticle 100).
  exact sampleParticle_fresh.
Defined.

(** ** Bars within the canvas *)

Lemma clamp_between (c t m : Q) :
  0 <= m ->
  Qmin c t <= c + clamp (t - c) m /\ c + clamp (t - c) m <= Qmax c t.
Proof.
  intro Hm.
  pose proof (Q.le_min_l c t). pose proof (Q.le_min_r c t).
  pose proof (Q.le_max_l c t). pose proof (Q.le_max_r c t).
  destruct (clamp_cases (t - c) m Hm) as [[H' E] | [[H' E] | [H' E]]];
    split; lra.
Qed.

Lemma barTarget_range (height : Q) (f : Z) :
  0 <= height -> u8 f ->
  0 <= barTarget height f /\ barTarget height f <= 0.7 * height.
Proof.
  intros Hh [F0 F1]. unfold barTarget.
  assert (Q0 : 0 <= inject_Z f / 255).
  { apply Qle_shift_div_l; [lra|]. rewrite Qmult_0_l.
    change 0 with (inject_Z 0). rewrite <- Zle_Qle. exact F0. }
  assert (Q1 : inject_Z f / 255 <= 1).
  { apply Qle_shift_div_r; [lra|]. rewrite Qmult_1_l.
    change 255 with (inject_Z 255). rewrite <- Zle_Qle. exact F1. }
  set (q := inject_Z f / 255) in *.
  assert (P0 : 0 <= q * height) by (apply Qmult_le_0_compat; assumption).
  assert (P1 : q * height <= 1 * height)
    by (apply Qmult_le_compat_r; assumption).
  split; lra.
Qed.

Lemma Forall_nth_Q (P : Q -> Prop) (l : list Q) (i : nat) :
  Forall P l -> (i < length l)%nat -> P (nth i l 0).
Proof.
  intros H Hi. rewrite Forall_forall in H. apply H, nth_In, Hi.
Qed.

Lemma Forall_nth_Z (P : Z -> Prop) (l : list Z) (i : nat) :
  Forall P l -> (i < length l)%nat -> P (nth i l 0%Z).
Proof.
  intros H Hi. rewrite Forall_forall in H. apply H, nth_In, Hi.
Qed.

Lemma drawBars_range (st : State) (data : VisualizerData) (width height : Q) :
  0 <= height -> Forall u8 (frequencies data) ->
  length (prevBarHeightsRef st) = length (frequencies data) ->
  Forall (fun v => 0 <= v /\ v <= 0.7 * height) (prevBarHeightsRef st) ->
  Forall (fun v => 0 <= v /\ v <= 0.7 * height)
         (prevBarHeightsRef (fst (drawBars st data width height))).
Proof.
  intros Hh Hu Hlen Hin. rewrite drawBars_matching by exact Hlen.
  apply Forall_forall. intros v Hv. apply in_map_iff in Hv.
  destruct Hv as (i & <- & Hi). apply in_seq in Hi.
  assert (Hc := Forall_nth_Q _ _ i Hin ltac:(lia)). cbv beta in Hc.
  assert (Ht := barTarget_range height _ Hh
                  (Forall_nth_Z _ _ i Hu ltac:(lia))).
  unfold smoothed, barTargetAt.
  destruct (clamp_between (nth i (prevBarHeightsRef st) 0)
              (barTarget height (nth i (frequencies data) 0%Z))
              barMaxDelta ltac:(unfold barMaxDelta; lra)) as [L U].
  set (c := nth i (prevBarHeightsRef st) 0) in *.
  set (t := barTarget height (nth i (frequencies data) 0%Z)) in *.
  destruct (Q.min_spec c t) as [[_ Em] | [_ Em]];
  destruct (Q.max_spec c t) as [[_ EM] | [_ EM]]; split; lra.
Qed.

(** X9. On a canvas of non-negative height and a non-empty snapshot of
    bytes, [drawBars] keeps every bar height within [[0, 0.7 * height]]:
    from a series of the snapshot's length that lies in this range, and
    from a series of any other length (which it replaces by zeros). *)
Theorem bars_stay_within_canvas (st : State) (data : VisualizerData)
        (width height : Q) :
  0 <= height -> Forall u8 (frequencies data) -> frequencies data <> [] ->
  (length (prevBarHeightsRef st) = length (frequencies data) ->
   Forall (fun v => 0 <= v /\ v <= 0.7 * height) (prevBarHeightsRef st)) ->
  Forall (fun v => 0 <= v /\ v <= 0.7 * height)
         (prevBarHeightsRef (fst (drawBars st data width height))).
Proof.
  intros Hh Hu Hne Hin.
  destruct (Nat.eq_dec (length (prevBarHeightsRef st))
                       (length (frequencies data))) as [E|E].
  - apply drawBars_range; auto.
  - rewrite (drawBars_reinit st) by exact Hne.
    assert (G : barGuard (length (frequencies data)) (prevBarHeightsRef st)
                = fill (length (frequencies data)) 0).
    { unfold barGuard. apply Nat.eqb_neq in E. rewrite E. reflexivity. }
    rewrite G. apply drawBars_range; try assumption.
    + apply repeat_length.
    + cbn [prevBarHeightsRef set_bars]. apply Forall_forall.
      intros v Hv. apply repeat_spec in Hv. subst v. split; lra.
Qed.

Lemma u8_check (l : list Z) :
  forallb (fun v => (0 <=? v)%Z && (v <=? 255)%Z) l = true -> Forall u8 l.
Proof.
  intro H. rewrite forallb_forall in H. apply Forall_forall.
  intros v Hv. specialize (H v Hv). apply andb_true_iff in H.
  unfold u8. lia.
Qed.

Lemma bars_stay_within_canvas_witness :
  Forall (fun v => 0 <= v /\ v <= 0.7 * 100)
         (prevBarHeightsRef (fst (drawBars playing rampData 800 100))).
Proof.
  apply (bars_stay_within_canvas playing rampData 800 100).
  - lra.
  - apply u8_check. vm_compute. reflexivity.
  - discriminate.
  - intro H. discriminate H.
Defined.

(** ** What the bars and the waveform put on the canvas *)

Lemma firstn_snoc {A : Type} (d : A) (l : list A) (k : nat) :
  (k < length l)%nat -> firstn (S k) l = firstn k l ++ [nth k l d].
Proof.
  revert k. induction l as [|a l IH]; intros [|k] H; simpl in *; try lia.
  - reflexivity.
  - f_equal. apply IH. lia.
Qed.

Lemma countGlow_snoc (fs : list Z) (k : nat) :
  (k < length fs)%nat ->
  countGlow (firstn (S k) fs)
  = (countGlow (firstn k fs)
     + if (200 <? nth k fs 0)%Z then 1 else 0)%nat.
Proof.
  intro H. unfold countGlow. rewrite (firstn_snoc 0%Z) by exact H.
  rewrite filter_app, length_app. cbn [filter].
  destruct (200 <? nth k fs 0)%Z; reflexivity.
Qed.

Lemma barStep_ops (data : VisualizerData) (w h : Q)
      (series : list Q) (ops : list DrawOp) (i : nat) :
  Forall (standsOnBottom h (w / len (frequencies data) - 1)) ops ->
  length (snd (barStep data w h (series, ops) i))
  = (length ops + 1
     + if (200 <? nth i (frequencies data) 0)%Z then 1 else 0)%nat /\
  Forall (standsOnBottom h (w / len (frequencies data) - 1))
         (snd (barStep data w h (series, ops) i)).
Proof.
  intro H. unfold barStep. cbv zeta.
  destruct (200 <? nth i (frequencies data) 0)%Z; cbn [snd];
    rewrite ?length_app; cbn [length]; (split; [lia|]);
    repeat (apply Forall_app; split); try exact H;
    apply Forall_cons; try apply Forall_nil;
    cbn [standsOnBottom]; split; try reflexivity; lra.
Qed.

Lemma bar_fold_ops (data : VisualizerData) (w h : Q) (k : nat)
      (series : list Q) :
  (k <= length (frequencies data))%nat ->
  length (snd (fold_left (barStep data w h) (seq 0 k) (series, [])))
  = (k + countGlow (firstn k (frequencies data)))%nat /\
  Forall (standsOnBottom h (w / len (frequencies data) - 1))
         (snd (fold_left (barStep data w h) (seq 0 k) (series, []))).
Proof.
  induction k as [|k IH]; intro Hk.
  - cbn. split; [reflexivity | constructor].
  - rewrite seq_S, fold_left_app. cbn [Nat.add fold_left].
    destruct IH as [IHl IHf]; [lia|].
    destruct (fold_left (barStep data w h) (seq 0 k) (series, []))
      as [s1 o1].
    cbn [snd] in IHl, IHf.
    destruct (barStep_ops data w h s1 o1 k IHf) as [L F].
    split; [|exact F].
    rewrite L, IHl, countGlow_snoc by lia. lia.
Qed.

(** X10. [drawBars] issues one rectangle per bin plus one more for every
    bin above 200, and nothing else; every rectangle is
    [width / barCount - 1] wide and stands on the lower edge of the
    canvas. *)
Theorem bars_drawn (st : State) (data : VisualizerData) (width height : Q) :
  length (snd (drawBars st data width height))
  = (length (frequencies data) + countGlow (frequencies data))%nat /\
  Forall (standsOnBottom height (width / len (frequencies data) - 1))
         (snd (drawBars st data width height)).
Proof.
  unfold drawBars.
  destruct (bar_fold_ops data width height (length (frequencies data))
                         (prevBarHeightsRef st) (Nat.le_refl _)) as [L F].
  destruct (fold_left _ _ _) as [series ops]. cbn [snd] in *.
  rewrite firstn_all in L. split; assumption.
Qed.

Lemma nth_map_seq_any {A : Type} (f : nat -> A) (d : A) (n i : nat) :
  (i < n)%nat -> nth i (map f (seq 0 n)) d = f i.
Proof.
  intro H. rewrite (nth_indep _ d (f 0%nat)).
  - rewrite map_nth, seq_nth by exact H. reflexivity.
  - rewrite length_map, length_seq. exact H.
Qed.

Lemma abscissa_linear (sliceWidth : Q) (i : nat) :
  abscissa sliceWidth i == inject_Z (Z.of_nat i) * sliceWidth.
Proof.
  unfold abscissa. induction i as [|i IH]; simpl Nat.iter.
  - change (inject_Z (Z.of_nat 0)) with 0. lra.
  - rewrite IH, Nat2Z.inj_succ. unfold Z.succ. rewrite inject_Z_plus.
    change (inject_Z 1) with 1. lra.
Qed.

(** The loop of [drawWaveform] as a whole: the series, the path and the
    abscissa after the turns below [k]. *)
Lemma wave_fold (data : VisualizerData) (sliceWidth height : Q)
      (series : list Q) (k : nat) :
  (k <= length series)%nat ->
  fold_left (waveStep data sliceWidth height) (seq 0 k) (series, [], 0)
  = (fold_left (follow (waveTargetAt data height) waveMaxDelta)
               (seq 0 k) series,
     map (fun i => (abscissa sliceWidth i,
                    smoothed (waveTargetAt data height) waveMaxDelta series i))
         (seq 0 k),
     abscissa sliceWidth k).
Proof.
  induction k as [|k IH]; intro Hk.
  - reflexivity.
  - rewrite !seq_S, !fold_left_app, map_app, IH by lia.
    cbn [Nat.add fold_left map].
    rewrite follow_fold by lia.
    rewrite (skipn_nth_cons 0 series k) by lia.
    set (front := map (smoothed (waveTargetAt data height) waveMaxDelta series)
                      (seq 0 k)).
    assert (Hf : length front = k).
    { unfold front. rewrite length_map, length_seq. reflexivity. }
    assert (N : nth k (front ++ nth k series 0 :: skipn (S k) series) 0
                = nth k series 0).
    { rewrite <- Hf at 1. apply nth_app_here. }
    unfold waveStep, follow, smoothed, waveTargetAt. rewrite !N.
    reflexivity.
Qed.

(** X11. [drawWaveform] strokes one path with one point per sample: the
    [i]-th point has the abscissa [i * (width / count)] and, as ordinate,
    the smoothed value the call stores at index [i]. *)
Theorem waveform_path (st : State) (data : VisualizerData) (width height : Q) :
  exists path,
    snd (drawWaveform st data width height) = [stroke path] /\
    length path = length (waveform data) /\
    forall i, (i < length (waveform data))%nat ->
      fst (nth i path (0, 0))
      == inject_Z (Z.of_nat i) * (width / len (waveform data)) /\
      snd (nth i path (0, 0))
      = nth i (prevWaveRef (fst (drawWaveform st data width height))) 0.
Proof.
  pose proof (drawWaveform_series st data width height) as S.
  unfold drawWaveform in *. cbv zeta in *.
  change (if negb (Nat.eqb (length (prevWaveRef st)) (length (waveform data)))
          then fill (length (waveform data)) (height / 2)
          else prevWaveRef st)
    with (waveGuard (length (waveform data)) height (prevWaveRef st)) in *.
  set (s0 := waveGuard (length (waveform data)) height (prevWaveRef st)) in *.
  assert (Hl : length s0 = length (waveform data))
    by apply waveGuard_length.
  rewrite wave_fold in * by lia.
  cbn [fst snd prevWaveRef set_wave] in *.
  eexists. split; [reflexivity|]. split.
  - rewrite length_map, length_seq. reflexivity.
  - intros i Hi. rewrite S.
    rewrite (nth_map_seq_any _ (0, 0)) by exact Hi.
    rewrite nth_map_seq by exact Hi. cbn [fst snd].
    split; [apply abscissa_linear | reflexivity].
Qed.

(** ** Snapshots *)

(** X12. In every run each snapshot has exactly 128 frequency entries and
    128 waveform entries: every analyser the component creates works on 256
    points, and the buffers are sized by its bin count. *)
Theorem snapshot_cardinality (st st1 : State) (fr : Frame) (t : Q)
        (data : VisualizerData) :
  reachable st ->
  analyzeAudio st fr t = Some (data, st1) ->
  length (frequencies data) = 128%nat /\ length (waveform data) = 128%nat.
Proof.
  intros Hr Ha. exact (reachable_snapshot _ _ _ _ _ Hr Ha).
Qed.

Lemma snapshot_cardinality_witness :
  length (frequencies rampData) = 128%nat /\
  length (waveform rampData) = 128%nat.
Proof.
  apply (snapshot_cardinality playing rampAfter rampFrame 1000 rampData).
  - exact playing_reachable.
  - vm_compute. reflexivity.
Defined.

Lemma firstn_clip {A : Type} (k : nat) (l : list A) :
  firstn k l = firstn (Nat.min k (length l)) l.
Proof.
  destruct (Nat.le_gt_cases k (length l)) as [H|H].
  - rewrite Nat.min_l by exact H. reflexivity.
  - rewrite Nat.min_r by lia. rewrite firstn_all.
    apply firstn_all2. lia.
Qed.

Lemma slice_clip {A : Type} (lo hi : nat) (l : list A) :
  slice lo hi l = slice lo (Nat.min hi (length l)) l.
Proof.
  unfold slice. rewrite firstn_clip, length_skipn.
  rewrite Nat.sub_min_distr_r. reflexivity.
Qed.

Lemma band_level_clipped (fs : list Z) (lo hi : nat) :
  (lo < hi)%nat -> (lo < length fs)%nat -> Forall u8 fs ->
  bandLevelOf fs lo (Nat.min hi (length fs)) (level (slice lo hi fs)).
Proof.
  intros Hlt Hlo Hu. rewrite slice_clip. apply band_level; try assumption; lia.
Qed.

(** X13. On a snapshot shorter than 100 bins each band level is the mean
    over the part of its range that lies inside the snapshot, as long as
    that part is not empty: [[0, min 10 n)], [[10, min 50 n)],
    [[50, min 100 n)]. *)
Theorem band_levels_short_snapshot (st st1 : State) (fr : Frame) (t : Q)
        (data : VisualizerData) :
  frame_ok fr ->
  analyzeAudio st fr t = Some (data, st1) ->
  ((0 < length (frequencies data))%nat ->
   bandLevelOf (frequencies data) 0
               (Nat.min 10 (length (frequencies data))) (bassLevel data)) /\
  ((10 < length (frequencies data))%nat ->
   bandLevelOf (frequencies data) 10
               (Nat.min 50 (length (frequencies data))) (midLevel data)) /\
  ((50 < length (frequencies data))%nat ->
   bandLevelOf (frequencies data) 50
               (Nat.min 100 (length (frequencies data))) (trebleLevel data)).
Proof.
  intros [Hf _] Ha. unfold analyzeAudio in Ha.
  destruct (analyserRef st) as [a|]; [|discriminate].
  injection Ha as <- _. cbn [frequencies bassLevel midLevel trebleLevel].
  pose proof (sample_u8 (frequencyBinCount a) _ Hf) as Hu.
  split; [|split]; intro Hn; apply band_level_clipped; try exact Hu; lia.
Qed.

Lemma band_levels_short_snapshot_witness :
  length (frequencies (dataOf (analyzeAudio coarse rampFrame 1000))) = 64%nat /\
  bandLevelOf (frequencies (dataOf (analyzeAudio coarse rampFrame 1000))) 50
              (Nat.min 100 64)
              (trebleLevel (dataOf (analyzeAudio coarse rampFrame 1000))).
Proof.
  split; [vm_compute; reflexivity|].
  destruct (band_levels_short_snapshot coarse
              (stateOf coarse (analyzeAudio coarse rampFrame 1000))
              rampFrame 1000
              (dataOf (analyzeAudio coarse rampFrame 1000))) as (_ & _ & T).
  - split; apply u8_check; vm_compute; reflexivity.
  - vm_compute. reflexivity.
  - apply T. vm_compute. lia.
Defined.

(** ** Starting, stopping and starting again *)

(** X14. From a stopped session, [initializeMicrophone] starts playing
    exactly when the promise resolves, and [initializeSystemAudio] exactly
    when it resolves with a stream that has an audio track; after
    [initializeSystemAudio] the error message is empty exactly when the
    session has started. *)
Theorem session_starts_iff (st : State) (r : MediaResult) :
  isPlaying st = false ->
  (isPlaying (fst (initializeMicrophone st r)) = true
   <-> exists s, r = resolved s) /\
  (isPlaying (fst (initializeSystemAudio st r)) = true
   <-> exists s, r = resolved s /\ audioTracks s <> 0%nat) /\
  (errorMsg (fst (initializeSystemAudio st r)) = ""%string
   <-> isPlaying (fst (initializeSystemAudio st r)) = true).
Proof.
  intro Hs. split; [|split].
  - destruct r as [err | s]; cbn.
    + rewrite Hs. split; [discriminate | intros (s & E); discriminate E].
    + split; [eauto | reflexivity].
  - destruct r as [err | s]; cbn.
    + rewrite Hs. split; [discriminate | intros (s & E & _); discriminate E].
    + destruct (Nat.eqb (audioTracks s) 0) eqn:E; cbn.
      * apply Nat.eqb_eq in E. rewrite Hs.
        split; [discriminate | intros (s' & E' & N)].
        injection E' as <-. contradiction.
      * apply Nat.eqb_neq in E. split; [eauto | reflexivity].
  - destruct r as [err | s]; cbn.
    + rewrite Hs. destruct (String.eqb (name err) "NotSupportedError");
        split; discriminate.
    + destruct (Nat.eqb (audioTracks s) 0); cbn.
      * rewrite Hs. split; discriminate.
      * split; reflexivity.
Qed.

Lemma session_starts_iff_witness :
  (isPlaying (fst (initializeMicrophone initial micDenied)) = true
   <-> exists s, micDenied = resolved s) /\
  (isPlaying (fst (initializeSystemAudio initial micDenied)) = true
   <-> exists s, micDenied = resolved s /\ audioTracks s <> 0%nat) /\
  (errorMsg (fst (initializeSystemAudio initial micDenied)) = ""%string
   <-> isPlaying (fst (initializeSystemAudio initial micDenied)) = true).
Proof.
  apply (session_starts_iff initial micDenied). reflexivity.
Defined.

(** X15. [stopAudio] resets nothing of the analysis: a session started
    after a stop (from the microphone, or from a display with an audio
    track) begins with the particles, the two smoothed series, the average
    and the last beat time of the session before, on a new analyser; so its
    first tick flags no beat if it comes within 180 ms of the last beat of
    the earlier session. *)
Theorem restart_keeps_analysis_state (st st1 : State) (s : MediaStream)
        (fr : Frame) (t : Q) (data : VisualizerData) :
  audioTracks s <> 0%nat ->
  (forall st',
     st' = fst (initializeMicrophone (stopAudio st) (resolved s)) \/
     st' = fst (initializeSystemAudio (stopAudio st) (resolved s)) ->
     isPlaying st' = true /\ analyserRef st' = Some newAnalyser /\
     particlesRef st' = particlesRef st /\
     prevBarHeightsRef st' = prevBarHeightsRef st /\
     prevWaveRef st' = prevWaveRef st /\
     bassEmaRef st' = bassEmaRef st /\
     lastBeatTsRef st' = lastBeatTsRef st) /\
  (analyzeAudio (fst (initializeMicrophone (stopAudio st) (resolved s))) fr t
   = Some (data, st1) ->
   t - lastBeatTsRef st <= 180 ->
   beat data = false).
Proof.
  intro Hs. split.
  - intros st' [-> | ->]; cbn.
    + repeat split.
    + apply Nat.eqb_neq in Hs. rewrite Hs. cbn. repeat split.
  - intros Ha Hnear.
    destruct (analyzeAudio_beat _ _ _ _ _ Ha) as (_ & Hbeat & _).
    rewrite Hbeat. apply andb_false_iff. right. apply Qltb_ge.
    unfold minInterval. exact Hnear.
Qed.

Lemma restart_keeps_analysis_state_witness :
  particlesRef (fst (initializeMicrophone (stopAudio afterBeat)
                                          (resolved (mkStream 1 0))))
  = particlesRef afterBeat /\
  beat (dataOf (analyzeAudio
                  (fst (initializeMicrophone (stopAudio afterBeat)
                                             (resolved (mkStream 1 0))))
                  (bassFrame 255) 1100)) = false.
Proof.
  destruct (restart_keeps_analysis_state
              afterBeat
              (stateOf afterBeat
                 (analyzeAudio
                    (fst (initializeMicrophone (stopAudio afterBeat)
                                               (resolved (mkStream 1 0))))
                    (bassFrame 255) 1100))
              (mkStream 1 0) (bassFrame 255) 1100
              (dataOf (analyzeAudio
                         (fst (initializeMicrophone (stopAudio afterBeat)
                                                    (resolved (mkStream 1 0))))
                         (bassFrame 255) 1100))) as [K B].
  - discriminate.
  - split.
    + destruct (K _ (or_introl eq_refl)) as (_ & _ & P & _). exact P.
    + apply B; vm_compute; [reflexivity | congruence].
Defined.

(** ** The fade of a particle *)

(** X16. The opacity with which a particle is drawn falls linearly with
    its age: each pass lowers it by [1 / maxLife], so that after [k] passes
    a particle of age zero is drawn with opacity [1 - k / maxLife]. *)
Theorem opacity_fades_linearly (p : Particle) (k : nat) :
  opacity (advance p) == opacity p - 1 / maxLife p /\
  (life p == 0 ->
   opacity (Nat.iter k advance p)
   == 1 - inject_Z (Z.of_nat k) / maxLife p).
Proof.
  split.
  - unfold opacity. cbn [advance life maxLife]. unfold Qdiv. ring.
  - intro H0. unfold opacity.
    destruct (iter_advance_life p k) as [-> ->].
    rewrite H0. unfold Qdiv. ring.
Qed.

Lemma opacity_fades_linearly_witness :
  opacity (advance sampleParticle)
  == opacity sampleParticle - 1 / maxLife sampleParticle /\
  opacity (Nat.iter 30 advance sampleParticle)
  == 1 - inject_Z (Z.of_nat 30) / maxLife sampleParticle.
Proof.
  destruct (opacity_fades_linearly sampleParticle 30) as [A B].
  split; [exact A | apply B; reflexivity].
Defined.
